(** * Mind-map document model: graph, tree derivation, layout, history, catalog

    A shallow embedding of the editor logic of the mind-map application
    (the [App] component in its successive revisions) and the properties
    of its document model.

    Conventions of the embedding.
    - React state ([useState], [useNodesState], [useEdgesState], [useRef])
      is one record passed explicitly; every handler is a function from
      state to state.  A handler runs to completion before the next one
      starts, so the state setters of one handler are applied in sequence.
    - JavaScript numbers used as coordinates are integers here ([Z]).
    - [uuidv4()] is an input of the handler that calls it.
    - [JSON.parse (JSON.stringify v)] on plain data is the identity.
    - A recursive JavaScript function takes a [fuel] argument bounding the
      depth of its call stack; [None] means the stack was exhausted before
      the call returned. *)

From Stdlib Require Import ZArith.
From stdpp Require Import base option list relations strings gmap.

(** ** Shared data: positions and edges *)

Record Position := mkPosition { x : Z; y : Z }.

(** An edge as React Flow stores it.  The handles are present on edges made
    by the first revisions and absent ([None]) on edges made by the last. *)
Record Edge := mkEdge {
  edge_id : string;
  source : string;
  target : string;
  sourceHandle : option string;
  targetHandle : option string
}.

(** JavaScript truthiness of an optional boolean field ([undefined] is falsy). *)
Definition truthy (b : option bool) : bool := default false b.

(** [step edges a b]: some edge leads from [a] to [b]. *)
Definition step (edges : list Edge) (a b : string) : Prop :=
  ∃ e, e ∈ edges ∧ source e = a ∧ target e = b.

(** The descendant set of the specification: everything reachable from [a]
    along edges, [a] included. *)
Definition descendant (edges : list Edge) (a b : string) : Prop :=
  rtc (step edges) a b.

(** No cycle can be reached from [a]. *)
Definition acyclic_from (edges : list Edge) (a : string) : Prop :=
  ∀ b, rtc (step edges) a b → ¬ tc (step edges) b b.

(** The outgoing edges of a node, in edge-list order:
    [edges.filter(e => e.source === id)]. *)
Definition outgoing (edges : list Edge) (a : string) : list Edge :=
  filter (λ e, source e = a) edges.

(** [call_depth k edges a]: a recursive walk from [a] that calls itself on
    every child fits in a stack of [k] frames. *)
Fixpoint call_depth (k : nat) (edges : list Edge) (a : string) : Prop :=
  match k with
  | O => False
  | S k' => ∀ e, e ∈ outgoing edges a → call_depth k' edges (target e)
  end.

(** A chain of edges starting at [a] and visiting the nodes of [l] in order. *)
Fixpoint is_path (edges : list Edge) (a : string) (l : list string) : Prop :=
  match l with
  | [] => True
  | b :: l' => step edges a b ∧ is_path edges b l'
  end.

(** [Number.isSafeInteger], on integers: the integer [z] is one a double
    holds exactly.  On integers in this range the [+], the [*] and the
    [===] of the source are those of the integers whenever the result is in
    the range too; outside it the source rounds, and the integer arithmetic
    of this file no longer describes it. *)
Definition isSafeInteger (z : Z) : Prop :=
  (- (2 ^ 53 - 1) ≤ z ≤ 2 ^ 53 - 1)%Z.

(** The placement [(p.x + colOff, p.y + k * rowOff)] of row [k] next to a
    parent at [p] involves only safe integers. *)
Definition safe_placement (colOff rowOff : Z) (p : Position) (k : nat)
  : Prop :=
  isSafeInteger (x p) ∧ isSafeInteger (y p) ∧
  isSafeInteger (x p + colOff) ∧
  isSafeInteger (Z.of_nat k * rowOff) ∧
  isSafeInteger (y p + Z.of_nat k * rowOff).

(** ** First revisions of [App] (src/App.js and the multi-map revision) *)

Module Legacy.

Record Data := mkData { label : string }.

Record Node := mkNode {
  id : string;
  type : string;
  position : Position;
  data : Data;
  hidden : option bool
}.

Record State := mkState {
  nodes : list Node;
  edges : list Edge;
  selectedNode : option Node
}.

(** [getDescendants]:
<<
  const children = edges.filter((e) => e.source === parentId).map((e) => e.target);
  let all = [...children];
  children.forEach((childId) => { all = [...all, ...getDescendants(childId)]; });
  return [parentId, ...all];
>> *)
Fixpoint getDescendants (fuel : nat) (edges : list Edge) (parentId : string)
  : option (list string) :=
  match fuel with
  | O => None
  | S fuel' =>
      let children := target <$> outgoing edges parentId in
      all ← foldl (λ all childId,
                     a ← all;
                     d ← getDescendants fuel' edges childId;
                     Some (a ++ d))
                  (Some children) children;
      Some (parentId :: all)
  end.

Definition setNodes (nds : list Node) (st : State) : State :=
  mkState nds (edges st) (selectedNode st).
Definition setEdges (eds : list Edge) (st : State) : State :=
  mkState (nodes st) eds (selectedNode st).
Definition setSelectedNode (sel : option Node) (st : State) : State :=
  mkState (nodes st) (edges st) sel.

(** [{ ...n, data: { label: newLabel } }] *)
Definition withLabel (newLabel : string) (n : Node) : Node :=
  mkNode (id n) (type n) (position n) (mkData newLabel) (hidden n).

(** [{ ...n, hidden: h }] *)
Definition withHidden (h : bool) (n : Node) : Node :=
  mkNode (id n) (type n) (position n) (data n) (Some h).

(** [updateNodeLabel]:
    [nds.map((n) => n.id === nodeId ? { ...n, data: { label: newLabel } } : n)] *)
Definition updateNodeLabel (nodeId newLabel : string) (st : State) : State :=
  setNodes ((λ n, if decide (id n = nodeId) then withLabel newLabel n else n)
              <$> nodes st) st.

(** [addNode]; the two [uuidv4()] results are [newId] and [newEdgeId]. *)
Definition addNode (newId newEdgeId : string) (st : State) : State :=
  match selectedNode st with
  | None => st
  | Some sel =>
      let childrenCount := length (outgoing (edges st) (id sel)) in
      let newNode :=
        mkNode newId "custom"
          (mkPosition (x (position sel) + 250)
                      (y (position sel) + Z.of_nat childrenCount * 100))
          (mkData "新しいノード") None in
      setEdges (edges st ++
                  [mkEdge newEdgeId (id sel) (id newNode)
                          (Some "item2") (Some "item1")])
        (setNodes (nodes st ++ [newNode]) st)
  end.

(** [deleteNode]:
<<
  const idsToDelete = getDescendants(selectedNode.id);
  setNodes((nds) => nds.filter((n) => !idsToDelete.includes(n.id)));
  setEdges((eds) => eds.filter((e) =>
    !idsToDelete.includes(e.source) && !idsToDelete.includes(e.target)));
  setSelectedNode(null);
>> *)
Definition deleteNode (fuel : nat) (st : State) : option State :=
  match selectedNode st with
  | None => Some st
  | Some sel =>
      idsToDelete ← getDescendants fuel (edges st) (id sel);
      Some (setSelectedNode None
              (setEdges (filter (λ e, (source e ∉ idsToDelete) ∧
                                      (target e ∉ idsToDelete)) (edges st))
                 (setNodes (filter (λ n, id n ∉ idsToDelete) (nodes st)) st)))
  end.

(** [nds.find((x) => x.id === i)?.hidden] *)
Definition hiddenOf (nds : list Node) (i : string) : option bool :=
  List.find (λ x, bool_decide (id x = i)) nds ≫= hidden.

(** [toggleChildren]:
<<
  const childIds = getDescendants(nodeId);
  setNodes((nds) => nds.map((n) =>
    childIds.includes(n.id)
      ? { ...n, hidden: !nds.find((x) => x.id === n.id)?.hidden } : n));
>> *)
Definition toggleChildren (fuel : nat) (nodeId : string) (st : State)
  : option State :=
  childIds ← getDescendants fuel (edges st) nodeId;
  Some (setNodes
          ((λ n, if decide (id n ∈ childIds)
                 then withHidden (negb (truthy (hiddenOf (nodes st) (id n)))) n
                 else n) <$> nodes st) st).

(** The nodes and edges handed to [<ReactFlow>]:
<<
  nodes={nodes.filter((n) => !n.hidden)}
  edges={edges.filter((e) =>
    !nodes.find((n) => n.id === e.source)?.hidden &&
    !nodes.find((n) => n.id === e.target)?.hidden)}
>> *)
Definition visibleNodes (st : State) : list Node :=
  filter (λ n, truthy (hidden n) = false) (nodes st).

Definition visibleEdges (st : State) : list Edge :=
  filter (λ e, truthy (hiddenOf (nodes st) (source e)) = false ∧
               truthy (hiddenOf (nodes st) (target e)) = false)
         (edges st).

(** [editNode]; [answer] is what [prompt] returned ([None]: cancelled).
<<
  if (!selectedNode) return alert(...);
  const newLabel = prompt(..., selectedNode.data.label);
  if (!newLabel) return;
  setNodes((nds) => nds.map((n) =>
    (n.id === selectedNode.id ? { ...n, data: { label: newLabel } } : n)));
>> *)
Definition editNode (answer : option string) (st : State) : State :=
  match selectedNode st with
  | None => st
  | Some sel =>
      match answer with
      | None => st
      | Some newLabel =>
          if decide (newLabel = "") then st
          else setNodes ((λ n, if decide (id n = id sel)
                               then withLabel newLabel n else n)
                           <$> nodes st) st
      end
  end.

(** The connection flags of [customNodeTypes]:
<<
  edges.some(e => (e.source === props.id && e.sourceHandle === 'item1') ||
                  (e.target === props.id && e.targetHandle === 'item1'))
>>
    and the same with ['item2']. *)
Definition hasConnection (handle : string) (eds : list Edge) (i : string)
  : bool :=
  bool_decide
    (Exists (λ e, (source e = i ∧ sourceHandle e = Some handle) ∨
                  (target e = i ∧ targetHandle e = Some handle)) eds).

Definition hasLeftConnection : list Edge → string → bool :=
  hasConnection "item1".
Definition hasRightConnection : list Edge → string → bool :=
  hasConnection "item2".

(** Children added one after the other under the current selection by
    clicking the button, whose [onClick] is the [addNode] of the latest
    render. *)
Definition addNodes (steps : list (string * string)) (st : State) : State :=
  foldl (λ (st : State) (s : string * string), addNode s.1 s.2 st) st steps.

(** [addNode] as a handler created in an earlier render runs it: [seen] is
    the [edges] of that render, which the body reads to count the children;
    the two setters take updater functions and so append to the nodes and
    edges of the moment. *)
Definition addNodeSeen (seen : list Edge) (newId newEdgeId : string)
    (st : State) : State :=
  match selectedNode st with
  | None => st
  | Some sel =>
      let childrenCount := length (outgoing seen (id sel)) in
      let newNode :=
        mkNode newId "custom"
          (mkPosition (x (position sel) + 250)
                      (y (position sel) + Z.of_nat childrenCount * 100))
          (mkData "新しいノード") None in
      setEdges (edges st ++
                  [mkEdge newEdgeId (id sel) (id newNode)
                          (Some "item2") (Some "item1")])
        (setNodes (nodes st ++ [newNode]) st)
  end.

(** [handleKeyDown], a [useCallback] whose only dependency is
    [selectedNode]: the [addNode] it calls belongs to the render in which
    the selection last changed, and [seen] is the [edges] of that render.
<<
  if (event.key === 'Tab') {
    event.preventDefault();
    if (selectedNode) { addNode(); }
  }
>> *)
Definition handleKeyDown (seen : list Edge) (key newId newEdgeId : string)
    (st : State) : State :=
  if decide (key = "Tab")
  then match selectedNode st with
       | Some _ => addNodeSeen seen newId newEdgeId st
       | None => st
       end
  else st.

(** Tab pressed again and again without selecting anew. *)
Definition tabAdds (seen : list Edge) (steps : list (string * string))
    (st : State) : State :=
  foldl (λ (st : State) (s : string * string),
           handleKeyDown seen "Tab" s.1 s.2 st) st steps.

End Legacy.

(** ** Last revision of [App]: history, colours, multi-document store *)

Module Editor.

Record Data := mkData { label : string; color : option string }.

Record Node := mkNode {
  id : string;
  type : string;
  position : Position;
  data : Data;
  hidden : option bool
}.

(** A history entry [{ n, e }]. *)
Record Snapshot := mkSnapshot { n : list Node; e : list Edge }.

Inductive View := list_view | edit_view.

Record State := mkState {
  view : View;
  mapId : option string;
  nodes : list Node;
  edges : list Edge;
  selected : option Node;
  history : list Snapshot;
  showPicker : bool;
  isSaving : bool          (* isSavingRef.current *)
}.

(** The state of a freshly mounted [App]. *)
Definition initial : State :=
  mkState list_view None [] [] None [] false false.

Definition setView (v : View) (st : State) : State :=
  mkState v (mapId st) (nodes st) (edges st) (selected st) (history st)
          (showPicker st) (isSaving st).
Definition setMapId (m : option string) (st : State) : State :=
  mkState (view st) m (nodes st) (edges st) (selected st) (history st)
          (showPicker st) (isSaving st).
Definition setNodes (nds : list Node) (st : State) : State :=
  mkState (view st) (mapId st) nds (edges st) (selected st) (history st)
          (showPicker st) (isSaving st).
Definition setEdges (eds : list Edge) (st : State) : State :=
  mkState (view st) (mapId st) (nodes st) eds (selected st) (history st)
          (showPicker st) (isSaving st).
Definition setSelected (sel : option Node) (st : State) : State :=
  mkState (view st) (mapId st) (nodes st) (edges st) sel (history st)
          (showPicker st) (isSaving st).
Definition setHistory (h : list Snapshot) (st : State) : State :=
  mkState (view st) (mapId st) (nodes st) (edges st) (selected st) h
          (showPicker st) (isSaving st).
Definition setIsSaving (b : bool) (st : State) : State :=
  mkState (view st) (mapId st) (nodes st) (edges st) (selected st)
          (history st) (showPicker st) b.

(** The literals of [addNode], named as the layout rule names them. *)
Definition COLUMN_OFFSET : Z := 240.
Definition ROW_OFFSET : Z := 60.

(** [prev.slice(-k)]: the last [k] elements (all of them if fewer). *)
Definition slice_last {A} (k : nat) (l : list A) : list A :=
  drop (length l - k) l.

(** [newHistory.pop()]: the array without its last element. *)
Definition pop {A} (l : list A) : list A := take (length l - 1) l.

(** [pushHistory]:
<<
  if (isSavingRef.current) return;
  isSavingRef.current = true;
  setHistory(prev => [...prev.slice(-20),
    { n: JSON.parse(JSON.stringify(n)), e: JSON.parse(JSON.stringify(e)) }]);
  setTimeout(() => { isSavingRef.current = false; }, 100);
>> *)
Definition pushHistory (n0 : list Node) (e0 : list Edge) (st : State) : State :=
  if isSaving st then st
  else setHistory (slice_last 20 (history st) ++ [mkSnapshot n0 e0])
         (setIsSaving true st).

(** The callback of the 100 ms timer. *)
Definition timeout (st : State) : State := setIsSaving false st.

(** [undo]:
<<
  if (history.length < 2) return;
  setHistory(prev => {
    const newHistory = [...prev];
    newHistory.pop();
    const prevState = newHistory[newHistory.length - 1];
    if (prevState) { setNodes(prevState.n); setEdges(prevState.e); }
    return newHistory;
  });
>> *)
Definition undo (st : State) : State :=
  if decide (length (history st) < 2) then st
  else
    let newHistory := pop (history st) in
    let st' := match last newHistory with
               | Some prevState =>
                   setEdges (e prevState) (setNodes (n prevState) st)
               | None => st
               end in
    setHistory newHistory st'.

(** [{ ...n, data: { ...n.data, label } }] *)
Definition withLabel (l : string) (nd : Node) : Node :=
  mkNode (id nd) (type nd) (position nd) (mkData l (color (data nd)))
         (hidden nd).

(** [{ ...n, data: { ...n.data, color: c } }] *)
Definition withColor (c : string) (nd : Node) : Node :=
  mkNode (id nd) (type nd) (position nd) (mkData (label (data nd)) (Some c))
         (hidden nd).

(** [updateLabel]:
<<
  setNodes((nds) => {
    const nextNodes = nds.map((n) =>
      n.id === id ? { ...n, data: { ...n.data, label } } : n);
    pushHistory(nextNodes, edges);
    return nextNodes;
  });
>> *)
Definition updateLabel (i l : string) (st : State) : State :=
  let nextNodes :=
    (λ nd, if decide (id nd = i) then withLabel l nd else nd) <$> nodes st in
  setNodes nextNodes (pushHistory nextNodes (edges st) st).

(** [nodes.filter(n => n.position.x === selected.position.x + 240).length] *)
Definition siblingCount (sel : Node) (nds : list Node) : nat :=
  length (filter (λ nd, x (position nd) = (x (position sel) + COLUMN_OFFSET)%Z)
                 nds).

(** The node built by [addNode] for the selected parent [sel].  The
    coordinates are the integer sums and products; they are those of the
    source when [safe_placement] holds. *)
Definition newNode (newId : string) (sel : Node) (nds : list Node) : Node :=
  mkNode newId "custom"
    (mkPosition (x (position sel) + COLUMN_OFFSET)
                (y (position sel) + Z.of_nat (siblingCount sel nds) * ROW_OFFSET))
    (mkData "新規項目" (color (data sel))) None.

(** [addNode]; the two [uuidv4()] results are [newId] and [newEdgeId].
<<
  if (!selected) return;
  pushHistory(nodes, edges);
  ...
  const nextNodes = [...nodes, newNode];
  const nextEdges = [...edges, { id: uuidv4(), source: selected.id, target: id }];
  setNodes(nextNodes);
  setEdges(nextEdges);
  pushHistory(nextNodes, nextEdges);
>> *)
Definition addNode (newId newEdgeId : string) (st : State) : State :=
  match selected st with
  | None => st
  | Some sel =>
      let st1 := pushHistory (nodes st) (edges st) st in
      let nextNodes := nodes st ++ [newNode newId sel (nodes st)] in
      let nextEdges :=
        edges st ++ [mkEdge newEdgeId (id sel) newId None None] in
      pushHistory nextNodes nextEdges
        (setEdges nextEdges (setNodes nextNodes st1))
  end.

(** [getChildren], local to [deleteNode]:
<<
  const getChildren = (id) => edges.filter(e => e.source === id)
    .reduce((acc, e) => [...acc, e.target, ...getChildren(e.target)], []);
>> *)
Fixpoint getChildren (fuel : nat) (edges : list Edge) (i : string)
  : option (list string) :=
  match fuel with
  | O => None
  | S fuel' =>
      foldl (λ acc ed,
               a ← acc;
               c ← getChildren fuel' edges (target ed);
               Some (a ++ target ed :: c))
            (Some []) (outgoing edges i)
  end.

(** [deleteNode]:
<<
  if (!selected) return;
  pushHistory(nodes, edges);
  const targets = [selected.id, ...getChildren(selected.id)];
  setNodes(nds => nds.filter(n => !targets.includes(n.id)));
  setEdges(eds => eds.filter(e =>
    !targets.includes(e.source) && !targets.includes(e.target)));
  setSelected(null);
>>
    [None]: the walk did not return and the handler was abandoned. *)
Definition deleteNode (fuel : nat) (st : State) : option State :=
  match selected st with
  | None => Some st
  | Some sel =>
      let st1 := pushHistory (nodes st) (edges st) st in
      ch ← getChildren fuel (edges st) (id sel);
      let targets := id sel :: ch in
      Some (setSelected None
              (setEdges (filter (λ ed, (source ed ∉ targets) ∧
                                       (target ed ∉ targets)) (edges st1))
                 (setNodes (filter (λ nd, id nd ∉ targets) (nodes st1)) st1)))
  end.

(** [onNodeClick={(_, n) => setSelected(n)}] and
    [onPaneClick={() => setSelected(null)}] *)
Definition onNodeClick (nd : Node) (st : State) : State :=
  setSelected (Some nd) st.
Definition onPaneClick (st : State) : State := setSelected None st.

(** The colour picker's [onColorChange]; the picker is rendered only while
    a node is selected.
<<
  pushHistory(nodes, edges);
  setNodes(nds => nds.map(n =>
    n.id === selected.id ? { ...n, data: { ...n.data, color: c } } : n));
>> *)
Definition onColorChange (c : string) (st : State) : State :=
  match selected st with
  | None => st
  | Some sel =>
      setNodes ((λ nd, if decide (id nd = id sel) then withColor c nd else nd)
                  <$> nodes st)
               (pushHistory (nodes st) (edges st) st)
  end.

(** *** Repeated additions *)

(** Children added one after the other under the current selection; each
    step gives the two fresh ids and says whether the 100 ms timer expired
    since the previous step. *)
Definition addChildren (steps : list (bool * string * string)) (st : State)
  : State :=
  foldl (λ (st : State) (s : bool * string * string),
           addNode s.1.2 s.2 (if s.1.1 then timeout st else st))
        st steps.

(** *** Runs of the history manager *)

(** What can happen to the history: a push request, the expiry of the
    100 ms timer, an undo. *)
Inductive Request :=
| Push (n0 : list Node) (e0 : list Edge)
| Expire
| Undo.

Definition serve (st : State) (r : Request) : State :=
  match r with
  | Push n0 e0 => pushHistory n0 e0 st
  | Expire => timeout st
  | Undo => undo st
  end.

Definition serveAll (rs : list Request) (st : State) : State :=
  foldl serve st rs.

(** Push requests each made after the timer of the previous one expired. *)
Definition spaced (ps : list Snapshot) : list Request :=
  ps ≫= λ p, [Expire; Push (n p) (e p)].

(** *** The persisted catalog ([localStorage] key ['mindmaps']) *)

(** One stored document. *)
Record Document := mkDocument {
  name : string;
  doc_nodes : list Node;
  doc_edges : list Edge
}.

(** What [JSON.parse] can return for the catalog key: [null], or an object
    from document ids to documents. *)
Inductive JValue :=
| JNull
| JObject (m : gmap string Document).

(** The stored item, classified by what the built-in functions make of it:
    no item ([getItem] returns [null]), the empty string, a non-empty text
    that is not JSON, or a non-empty text that is the JSON of [v]. *)
Inductive Stored :=
| Absent
| EmptyString
| Corrupt (raw : string)
| Json (v : JValue).

Inductive Error := SyntaxError | TypeError.

Inductive Outcome (A : Type) :=
| Ok (a : A)
| Throw (err : Error).
Arguments Ok {A} a.
Arguments Throw {A} err.

(** Truthiness of [localStorage.getItem('mindmaps')]. *)
Definition is_truthy (s : Stored) : bool :=
  match s with
  | Absent | EmptyString => false
  | Corrupt _ | Json _ => true
  end.

(** [JSON.parse(localStorage.getItem('mindmaps'))]: [null] is converted to
    the text ["null"], which parses to [null]; the empty string and a
    corrupt text raise [SyntaxError]. *)
Definition JSON_parse (s : Stored) : Outcome JValue :=
  match s with
  | Absent => Ok JNull
  | EmptyString => Throw SyntaxError
  | Corrupt _ => Throw SyntaxError
  | Json v => Ok v
  end.

(** [JSON.parse(localStorage.getItem('mindmaps') || '{}')] *)
Definition JSON_parse_or_empty (s : Stored) : Outcome JValue :=
  if is_truthy s then JSON_parse s else Ok (JObject ∅).

(** The property names every object inherits from [Object.prototype]:
    [obj[name]] is defined for them even when [name] is not a key of
    [obj]. *)
Definition Object_prototype_keys : list string :=
  ["constructor"; "__proto__"; "hasOwnProperty"; "isPrototypeOf";
   "propertyIsEnumerable"; "toLocaleString"; "toString"; "valueOf";
   "__defineGetter__"; "__defineSetter__"; "__lookupGetter__";
   "__lookupSetter__"].

(** [Object.entries(maps)] in the render of [MapListView], as a finite map
    (the order of the entries is not modelled): [null] raises. *)
Definition Object_entries (maps : JValue) : Outcome (gmap string Document) :=
  match maps with
  | JNull => Throw TypeError
  | JObject m => Ok m
  end.

(** The [maps] state of [MapListView]: [useState({})] followed by the
    mount effect
<<
  const saved = localStorage.getItem('mindmaps');
  if (saved) setMaps(JSON.parse(saved));
>> *)
Definition MapListView_maps (s : Stored) : Outcome JValue :=
  if is_truthy s then JSON_parse s else Ok (JObject ∅).

(** What [MapListView] lists: the mount effect followed by the render
    [Object.entries(maps).map(([id, m]) => ...)]. *)
Definition MapListView_listed (s : Stored) : Outcome (gmap string Document) :=
  match MapListView_maps s with
  | Throw err => Throw err
  | Ok maps => Object_entries maps
  end.

(** [onSelect]:
<<
  const d = JSON.parse(localStorage.getItem('mindmaps'))[id];
  setNodes(d.nodes); setEdges(d.edges); setMapId(id); setView('edit');
  setHistory([{ n: d.nodes, e: d.edges }]);
>>
    Indexing [null] and reading a field of [undefined] raise [TypeError].
    The lookup [obj[id]] is the lookup of an own key; for an [id] that is
    not an own key it describes the source when [id] is not in
    [Object_prototype_keys]. *)
Definition onSelect (i : string) (s : Stored) (st : State) : Outcome State :=
  match JSON_parse s with
  | Throw err => Throw err
  | Ok JNull => Throw TypeError
  | Ok (JObject m) =>
      match m !! i with
      | None => Throw TypeError
      | Some d =>
          Ok (setHistory [mkSnapshot (doc_nodes d) (doc_edges d)]
                (setView edit_view
                   (setMapId (Some i)
                      (setEdges (doc_edges d) (setNodes (doc_nodes d) st)))))
      end
  end.

(** The document written by [onCreate]. *)
Definition init : Document :=
  mkDocument "新しいマップ"
    [mkNode "1" "custom" (mkPosition 100 100) (mkData "中心" (Some "#333")) None]
    [].

(** [onCreate]; [uuidv4()] is [i].  Returns the new stored item and state.
<<
  const saved = JSON.parse(localStorage.getItem('mindmaps') || '{}');
  saved[id] = init; localStorage.setItem('mindmaps', JSON.stringify(saved));
  setNodes(init.nodes); setEdges(init.edges); setMapId(id); setView('edit');
>> *)
Definition onCreate (i : string) (s : Stored) (st : State)
  : Outcome (Stored * State) :=
  match JSON_parse_or_empty s with
  | Throw err => Throw err
  | Ok JNull => Throw TypeError
  | Ok (JObject m) =>
      Ok (Json (JObject (<[i := init]> m)),
          setView edit_view
            (setMapId (Some i)
               (setEdges (doc_edges init) (setNodes (doc_nodes init) st))))
  end.

(** *** Connection flags, shortcuts, list view, autosave *)

(** The flags of [nodeTypes]:
    [hasLeft={edges.some(e => e.target === props.id)}] and
    [hasRight={edges.some(e => e.source === props.id)}]. *)
Definition hasLeft (eds : list Edge) (i : string) : bool :=
  bool_decide (Exists (λ ed, target ed = i) eds).
Definition hasRight (eds : list Edge) (i : string) : bool :=
  bool_decide (Exists (λ ed, source ed = i) eds).

(** What the shortcut handler reads of a keyboard event. *)
Record KeyEvent := mkKeyEvent {
  key : string;
  ctrlKey : bool;
  metaKey : bool;
  targetTagName : string
}.

(** The [keydown] listener; the ids are the [uuidv4()] results of the
    [addNode] it may call.
<<
  if (view !== 'edit') return;
  if (e.key === 'Tab') { e.preventDefault(); addNode(); }
  if ((e.key === 'Delete' || e.key === 'Backspace')
      && e.target.tagName !== 'INPUT') deleteNode();
  if ((e.ctrlKey || e.metaKey) && e.key === 'z') { e.preventDefault(); undo(); }
>>
    No key satisfies two of the three tests, so at most one command runs. *)
Definition down (fuel : nat) (newId newEdgeId : string) (ev : KeyEvent)
    (st : State) : option State :=
  match view st with
  | list_view => Some st
  | edit_view =>
      let st1 := if decide (key ev = "Tab")
                 then addNode newId newEdgeId st else st in
      st2 ← (if decide ((key ev = "Delete" ∨ key ev = "Backspace") ∧
                        targetTagName ev ≠ "INPUT")
             then deleteNode fuel st1 else Some st1);
      Some (if (ctrlKey ev || metaKey ev) && bool_decide (key ev = "z")
            then undo st2 else st2)
  end.

(** [{ ...maps }]: spreading [null] gives the empty object. *)
Definition spread (v : JValue) : gmap string Document :=
  match v with
  | JNull => ∅
  | JObject m => m
  end.

(** The delete button of [MapListView]; [confirmed] is what
    [window.confirm] returned.  Returns the new [maps] and stored item.
<<
  if (window.confirm('...')) { const n = { ...maps }; delete n[id];
    setMaps(n); localStorage.setItem('mindmaps', JSON.stringify(n)); }
>> *)
Definition MapListView_delete (confirmed : bool) (i : string) (maps : JValue)
    (s : Stored) : JValue * Stored :=
  if confirmed
  then (JObject (delete i (spread maps)), Json (JObject (delete i (spread maps))))
  else (maps, s).

(** What the autosave effect leaves in the store: nothing new, a catalog,
    or the catalog [m] with, under [i], a record that has nodes and edges
    but no name (the record under [i] was missing). *)
Inductive Written :=
| Unchanged
| Wrote (s : Stored)
| WroteUnnamed (m : gmap string Document) (i : string)
               (nds : list Node) (eds : list Edge).

(** The autosave effect, run whenever nodes, edges, map id or view change:
<<
  if (view === 'edit' && mapId) {
    const saved = JSON.parse(localStorage.getItem('mindmaps') || '{}');
    saved[mapId] = { ...saved[mapId], nodes, edges };
    localStorage.setItem('mindmaps', JSON.stringify(saved));
  }
>> *)
Definition autosave (s : Stored) (st : State) : Outcome Written :=
  match view st, mapId st with
  | edit_view, Some i =>
      if decide (i = "") then Ok Unchanged
      else
        match JSON_parse_or_empty s with
        | Throw err => Throw err
        | Ok JNull => Throw TypeError
        | Ok (JObject m) =>
            match m !! i with
            | Some d =>
                Ok (Wrote (Json (JObject
                     (<[i := mkDocument (name d) (nodes st) (edges st)]> m))))
            | None => Ok (WroteUnnamed m i (nodes st) (edges st))
            end
        end
  | _, _ => Ok Unchanged
  end.

End Editor.

(** ** Sample documents *)

Module Sample.

(** A small tree [1 -> 2 -> 3], [1 -> 4] and a self-loop [1 -> 1]. *)
Definition e12 := mkEdge "e12" "1" "2" None None.
Definition e23 := mkEdge "e23" "2" "3" None None.
Definition e14 := mkEdge "e14" "1" "4" None None.
Definition e11 := mkEdge "e11" "1" "1" None None.

Definition tree : list Edge := [e12; e23; e14].
Definition loop : list Edge := [e11].

(** The root node written by [onCreate]. *)
Definition root : Editor.Node :=
  Editor.mkNode "1" "custom" (mkPosition 100 100)
                (Editor.mkData "中心" (Some "#333")) None.

Definition plain (i : string) (px py : Z) : Editor.Node :=
  Editor.mkNode i "custom" (mkPosition px py)
                (Editor.mkData "新規項目" (Some "#333")) None.

(** An open document with the tree above and a second tree [5 -> 6],
    root selected. *)
Definition tree_state : Editor.State :=
  Editor.mkState Editor.edit_view (Some "m")
    [root; plain "2" 340 100; plain "3" 580 100; plain "4" 340 160;
     plain "5" 100 300; plain "6" 340 300]
    (tree ++ [mkEdge "e56" "5" "6" None None])
    (Some root) [] false false.

(** A document whose only edge is the self-loop, root selected. *)
Definition loop_state : Editor.State :=
  Editor.mkState Editor.edit_view (Some "m") [root] loop (Some root) []
                 false false.

(** The catalog holding one freshly created document ["m"]. *)
Definition catalog : Editor.Stored :=
  Editor.Json (Editor.JObject {[ "m" := Editor.init ]}).

(** The session after opening ["m"] from the list view. *)
Definition opened : Editor.State :=
  Editor.mkState Editor.edit_view (Some "m") [root] [] None
                 [Editor.mkSnapshot [root] []] false false.

(** Open ["m"], click the root, add a child, let the timer expire. *)
Definition one_child : Editor.State :=
  Editor.timeout
    (Editor.addNode "a" "ea" (Editor.onNodeClick root opened)).

(** Then recolour the selected root. *)
Definition recoloured : Editor.State :=
  Editor.onColorChange "#dc3545" (Editor.onNodeClick root opened).

(** The same tree in the first revisions, every node visible. *)
Definition lnode (i : string) : Legacy.Node :=
  Legacy.mkNode i "custom" (mkPosition 0 0) (Legacy.mkData i) None.

Definition legacy_tree : Legacy.State :=
  Legacy.mkState [lnode "1"; lnode "2"; lnode "3"; lnode "4"] tree None.



End Sample.

(** ** The collapse toggle in the words of the specification *)



(** The function [toggleChildren] maps over the node list. *)
Definition toggled (childIds : list string) (nds : list Legacy.Node)
    (nd : Legacy.Node) : Legacy.Node :=
  if decide (Legacy.id nd ∈ childIds)
  then Legacy.withHidden
         (negb (truthy (Legacy.hiddenOf nds (Legacy.id nd)))) nd
  else nd.


(** ** Shapes of a document *)

(** No cycle anywhere in the edge list. *)
Definition acyclic (E : list Edge) : Prop := ∀ b, ¬ tc (step E) b b.

(** Every edge joins two ids that are in the list of node ids. *)
Definition closed (ids : list string) (E : list Edge) : Prop :=
  ∀ ed, ed ∈ E → source ed ∈ ids ∧ target ed ∈ ids.

(** The current graph and every history entry are free of cycles. *)
Definition tree_like (st : Editor.State) : Prop :=
  acyclic (Editor.edges st) ∧
  Forall (λ s, acyclic (Editor.e s)) (Editor.history st).

(** The top history entry is the current graph. *)
Definition synced (st : Editor.State) : Prop :=
  last (Editor.history st)
    = Some (Editor.mkSnapshot (Editor.nodes st) (Editor.edges st)).

(** Node ids and edge ids are unique and no edge dangles. *)
Definition well_formed (st : Editor.State) : Prop :=
  NoDup (Editor.id <$> Editor.nodes st) ∧
  NoDup (edge_id <$> Editor.edges st) ∧
  closed (Editor.id <$> Editor.nodes st) (Editor.edges st).

(** * Properties *)

(** ** Reachability and the depth of the recursive walk *)

Section graph.
Context (E : list Edge).

Lemma step_outgoing a b :
  step E a b ↔ ∃ e, e ∈ outgoing E a ∧ target e = b.
Proof.
  unfold step, outgoing. split.
  - intros (e & He & Hs & Ht). exists e. by rewrite list_elem_of_filter.
  - intros (e & He & Ht). apply list_elem_of_filter in He as [Hs He]. eauto.
Qed.

Lemma call_depth_S k a :
  call_depth (S k) E a ↔ ∀ b, step E a b → call_depth k E b.
Proof.
  simpl. split.
  - intros H b (e & He & <-)%step_outgoing. auto.
  - intros H e He. apply H, step_outgoing. eauto.
Qed.

Lemma call_depth_mono k k' a :
  call_depth k E a → k ≤ k' → call_depth k' E a.
Proof.
  revert k' a. induction k as [|k IH]; intros k' a Hk Hle; [done|].
  destruct k' as [|k']; [lia|].
  apply call_depth_S. intros b Hb.
  apply (IH k' b); [|lia]. by eapply call_depth_S.
Qed.

Lemma call_depth_rtc k a b :
  call_depth k E a → rtc (step E) a b → call_depth k E b.
Proof.
  intros Hk Hab. induction Hab as [|a c b Hac _ IH]; [done|].
  apply IH. destruct k as [|k]; [done|].
  apply call_depth_mono with k; [|lia]. by eapply call_depth_S.
Qed.

Lemma call_depth_no_cycle k a : call_depth k E a → ¬ tc (step E) a a.
Proof.
  induction k as [|k IH]; [done|]. intros Hk Hcyc. apply IH; [|done].
  assert (∃ c, step E a c ∧ rtc (step E) c a) as (c & Hac & Hca).
  { inversion Hcyc; subst; eauto using tc_rtc. }
  eapply call_depth_rtc; [|done]. by eapply call_depth_S.
Qed.

(** A walk that returns proves that no cycle is reachable. *)
Lemma call_depth_acyclic k a : call_depth k E a → acyclic_from E a.
Proof.
  intros Hk b Hab. eapply call_depth_no_cycle, call_depth_rtc; done.
Qed.

(** A walk that does not fit in [k] frames follows a chain of [k] edges. *)
Lemma call_depth_or_path k a :
  call_depth k E a ∨ ∃ l, length l = k ∧ is_path E a l.
Proof.
  revert a. induction k as [|k IH]; intros a.
  { right. by exists []. }
  assert (Forall (λ e, call_depth k E (target e)) (outgoing E a) ∨
          Exists (λ e, ∃ l, length l = k ∧ is_path E (target e) l)
                 (outgoing E a)) as [Hall|Hex].
  { induction (outgoing E a) as [|e es IHes]; [left; constructor|].
    destruct (IH (target e)) as [?|?]; [|right; by left].
    destruct IHes as [?|?]; [left; by constructor|right; by right]. }
  - left. simpl. by apply Forall_forall.
  - right. apply Exists_exists in Hex as (e & He & l & Hl & Hp).
    exists (target e :: l). split; [simpl; by f_equal|].
    split; [|done]. apply step_outgoing. eauto.
Qed.

Lemma is_path_elem a l b :
  is_path E a l → b ∈ l → tc (step E) a b ∧ b ∈ target <$> E.
Proof.
  revert a. induction l as [|c l IH]; intros a Hp Hb; [by inversion Hb|].
  destruct Hp as [Hac Hp]. apply elem_of_cons in Hb as [->|Hb].
  - split; [by apply tc_once|].
    destruct Hac as (e & He & _ & <-). by apply list_elem_of_fmap_2.
  - destruct (IH c Hp Hb) as [Hcb ?]. split; [|done].
    by eapply tc_l.
Qed.

(** A chain that visits a node twice contains a cycle. *)
Lemma is_path_repeat a l :
  is_path E a l → ¬ NoDup l → ∃ b, rtc (step E) a b ∧ tc (step E) b b.
Proof.
  revert a. induction l as [|c l IH]; intros a Hp Hdup.
  { destruct Hdup. constructor. }
  destruct Hp as [Hac Hp]. destruct (decide (c ∈ l)) as [Hc|Hc].
  - exists c. split; [by apply rtc_once|]. by eapply is_path_elem.
  - destruct (IH c Hp) as (b & Hcb & Hbb).
    { intros Hnd. apply Hdup. by constructor. }
    exists b. split; [|done]. by eapply rtc_l.
Qed.

Lemma acyclic_path_length a l :
  acyclic_from E a → is_path E a l → length l ≤ length E.
Proof.
  intros Hac Hp. destruct (decide (NoDup l)) as [Hnd|Hdup].
  - rewrite <-(length_fmap target E). apply submseteq_length.
    apply NoDup_submseteq; [done|]. intros b Hb. by eapply is_path_elem.
  - destruct (is_path_repeat a l Hp Hdup) as (b & Hab & Hbb).
    by destruct (Hac b Hab).
Qed.

(** Without a reachable cycle, one frame more than there are edges is
    enough. *)
Lemma acyclic_call_depth a :
  acyclic_from E a → call_depth (S (length E)) E a.
Proof.
  intros Hac. destruct (call_depth_or_path (S (length E)) a) as [?|Hp]; [done|].
  destruct Hp as (l & Hl & Hp). apply (acyclic_path_length a l Hac) in Hp. lia.
Qed.

Lemma acyclic_from_iff a : acyclic_from E a ↔ ∃ k, call_depth k E a.
Proof.
  split; [eauto using acyclic_call_depth|].
  intros [k Hk]. by eapply call_depth_acyclic.
Qed.

End graph.

(** ** The two recursive walks *)

Section walks.
Context {A B : Type}.

(** A left fold that appends the result of a partial function to an
    optional accumulator is a [mapM] followed by a concatenation. *)
Lemma foldl_option_app (G : B → option (list A))
    (g : option (list A) → B → option (list A)) :
  (∀ b, g None b = None) →
  (∀ a b, g (Some a) b = d ← G b; Some (a ++ d)) →
  ∀ bs acc, foldl g (Some acc) bs = ds ← mapM G bs; Some (acc ++ mjoin ds).
Proof.
  intros HNone HSome.
  assert (∀ bs, foldl g None bs = None) as Hfail.
  { induction bs as [|b bs IH]; simpl; [done|by rewrite HNone]. }
  induction bs as [|b bs IH]; intros acc; simpl.
  { by rewrite app_nil_r. }
  rewrite HSome. destruct (G b) as [d|]; simpl; [|apply Hfail].
  rewrite IH. destruct (mapM G bs) as [ds|]; simpl; [|done].
  by rewrite app_assoc.
Qed.

Lemma Forall2_elem_l (P : A → B → Prop) l k a :
  Forall2 P l k → a ∈ l → ∃ b, b ∈ k ∧ P a b.
Proof.
  induction 1 as [|a' b' l k Hab _ IH]; intros Ha; [by inversion Ha|].
  apply elem_of_cons in Ha as [->|Ha].
  - exists b'. split; [left|done].
  - destruct (IH Ha) as (b & ? & ?). exists b. split; [by right|done].
Qed.

Lemma Forall2_elem_r (P : A → B → Prop) l k b :
  Forall2 P l k → b ∈ k → ∃ a, a ∈ l ∧ P a b.
Proof.
  induction 1 as [|a' b' l k Hab _ IH]; intros Hb; [by inversion Hb|].
  apply elem_of_cons in Hb as [->|Hb].
  - exists a'. split; [left|done].
  - destruct (IH Hb) as (a & ? & ?). exists a. split; [by right|done].
Qed.
End walks.

Section descendants.
Context (E : list Edge).

Lemma getDescendants_S k a :
  Legacy.getDescendants (S k) E a =
    ds ← mapM (Legacy.getDescendants k E) (target <$> outgoing E a);
    Some (a :: (target <$> outgoing E a) ++ mjoin ds).
Proof.
  simpl. rewrite (foldl_option_app (Legacy.getDescendants k E)); [|done..].
  by destruct (mapM _ _).
Qed.

Lemma getChildren_S k a :
  Editor.getChildren (S k) E a =
    mjoin <$> mapM (λ ed, c ← Editor.getChildren k E (target ed);
                          Some (target ed :: c)) (outgoing E a).
Proof.
  simpl.
  rewrite (foldl_option_app
             (λ ed, c ← Editor.getChildren k E (target ed);
                    Some (target ed :: c))); [|done|].
  - by destruct (mapM _ _).
  - intros acc ed. by destruct (Editor.getChildren k E (target ed)).
Qed.

(** [getDescendants] returns exactly when the walk fits in the stack. *)
Lemma getDescendants_is_Some k a :
  is_Some (Legacy.getDescendants k E a) ↔ call_depth k E a.
Proof.
  revert a. induction k as [|k IH]; intros a.
  { simpl. split; [by intros [? ?]|done]. }
  rewrite getDescendants_S. simpl call_depth.
  trans (is_Some (mapM (Legacy.getDescendants k E) (target <$> outgoing E a))).
  { destruct (mapM _ _); simpl; split; intros [? ?]; by eauto. }
  rewrite mapM_is_Some, Forall_fmap, Forall_forall.
  split; intros H e He; specialize (H e He); simpl in *; by apply IH.
Qed.

Lemma getChildren_is_Some k a :
  is_Some (Editor.getChildren k E a) ↔ call_depth k E a.
Proof.
  revert a. induction k as [|k IH]; intros a.
  { simpl. split; [by intros [? ?]|done]. }
  rewrite getChildren_S, fmap_is_Some, mapM_is_Some, Forall_forall.
  simpl call_depth.
  split; intros H e He; specialize (H e He); simpl in *.
  - apply IH. by destruct (Editor.getChildren k E (target e)).
  - apply IH in H as [c ->]. done.
Qed.

(** What [getDescendants] returns is the descendant set of the
    specification, the start node included. *)
Lemma getDescendants_elem k a l :
  Legacy.getDescendants k E a = Some l →
  ∀ b, b ∈ l ↔ descendant E a b.
Proof.
  unfold descendant.
  revert a l. induction k as [|k IH]; intros a l Hl b; [done|].
  rewrite getDescendants_S in Hl.
  destruct (mapM _ _) as [ds|] eqn:Hds; simplify_eq/=.
  apply mapM_Some in Hds.
  rewrite elem_of_cons, elem_of_app, list_elem_of_fmap, list_elem_of_join.
  split.
  - intros [->|[(e & -> & He)|(d & Hb & Hd)]]; [done| |].
    + apply rtc_once, step_outgoing. eauto.
    + destruct (Forall2_elem_r _ _ _ _ Hds Hd) as (c & Hc & Hcd).
      apply list_elem_of_fmap in Hc as (e & -> & He).
      eapply rtc_l; [apply step_outgoing; eauto|]. by eapply IH.
  - intros [->|(c & Hac & Hcb)]%rtc_inv; [by left|].
    right; right. apply step_outgoing in Hac as (e & He & <-).
    destruct (Forall2_elem_l _ _ _ (target e) Hds) as (d & Hd & Hed).
    { by apply list_elem_of_fmap_2. }
    exists d. split; [|done]. by eapply IH.
Qed.

(** What [getChildren] returns is the set of proper descendants. *)
Lemma getChildren_elem k a l :
  Editor.getChildren k E a = Some l →
  ∀ b, b ∈ l ↔ tc (step E) a b.
Proof.
  revert a l. induction k as [|k IH]; intros a l Hl b; [done|].
  rewrite getChildren_S in Hl.
  destruct (mapM _ _) as [ds|] eqn:Hds; simplify_eq/=.
  apply mapM_Some in Hds. rewrite list_elem_of_join.
  split.
  - intros (d & Hb & Hd).
    destruct (Forall2_elem_r _ _ _ _ Hds Hd) as (e & He & Hed).
    simpl in Hed.
    destruct (Editor.getChildren k E (target e)) as [c|] eqn:Hc;
      simplify_eq/=.
    assert (step E a (target e)) by (apply step_outgoing; eauto).
    apply elem_of_cons in Hb as [->|Hb]; [by apply tc_once|].
    eapply tc_l; [done|]. by eapply IH.
  - intros Hab.
    assert (∃ c, step E a c ∧ (b = c ∨ tc (step E) c b)) as (c & Hac & Hcb).
    { inversion Hab; subst; eauto. }
    apply step_outgoing in Hac as (e & He & <-).
    destruct (Forall2_elem_l _ _ _ e Hds He) as (d & Hd & Hed).
    simpl in Hed.
    destruct (Editor.getChildren k E (target e)) as [c|] eqn:Hc;
      simplify_eq/=.
    exists (target e :: c). split; [|done].
    destruct Hcb as [->|Hcb]; [left|right]. by eapply IH.
Qed.

(** The head of the result is the start node. *)
Lemma getDescendants_head k a l :
  Legacy.getDescendants k E a = Some l → head l = Some a.
Proof.
  destruct k as [|k]; [done|]. rewrite getDescendants_S.
  destruct (mapM _ _); by intros [= <-].
Qed.

(** More stack never changes a result. *)
Lemma getDescendants_mono k k' a l :
  Legacy.getDescendants k E a = Some l → k ≤ k' →
  Legacy.getDescendants k' E a = Some l.
Proof.
  revert k' a l. induction k as [|k IH]; intros k' a l Hl Hle; [done|].
  destruct k' as [|k']; [lia|].
  rewrite getDescendants_S in Hl |- *.
  destruct (mapM (Legacy.getDescendants k E) _) as [ds|] eqn:Hds;
    simplify_eq/=.
  apply mapM_Some in Hds.
  assert (mapM (Legacy.getDescendants k' E) (target <$> outgoing E a)
          = Some ds) as ->; [|done].
  apply mapM_Some. eapply Forall2_impl; [done|].
  intros c d Hcd. apply IH; [done|lia].
Qed.

Lemma getChildren_mono k k' a l :
  Editor.getChildren k E a = Some l → k ≤ k' →
  Editor.getChildren k' E a = Some l.
Proof.
  revert k' a l. induction k as [|k IH]; intros k' a l Hl Hle; [done|].
  destruct k' as [|k']; [lia|].
  rewrite getChildren_S in Hl |- *.
  destruct (mapM _ _) as [ds|] eqn:Hds; simplify_eq/=.
  apply mapM_Some in Hds.
  assert (mapM (λ ed, c ← Editor.getChildren k' E (target ed);
                      Some (target ed :: c)) (outgoing E a)
          = Some ds) as ->; [|done].
  apply mapM_Some. eapply Forall2_impl; [done|].
  intros e d Hed. simpl in *.
  destruct (Editor.getChildren k E (target e)) as [c|] eqn:Hc; simplify_eq/=.
  by rewrite (IH k' (target e) c Hc) by lia.
Qed.

End descendants.

(** ** Termination of the descendant walk (C1) *)

Lemma getDescendants_returns_acyclic fuel E a l :
  Legacy.getDescendants fuel E a = Some l → acyclic_from E a.
Proof.
  intros H. apply (call_depth_acyclic E fuel), getDescendants_is_Some. eauto.
Qed.

Lemma getChildren_returns_acyclic fuel E a l :
  Editor.getChildren fuel E a = Some l → acyclic_from E a.
Proof.
  intros H. apply (call_depth_acyclic E fuel), getChildren_is_Some. eauto.
Qed.

Lemma self_loop_not_acyclic : ¬ acyclic_from Sample.loop "1".
Proof.
  intros H. apply (H "1"); [done|].
  apply tc_once. exists Sample.e11. split; [left|done].
Qed.

Lemma loop_walks_never_return fuel :
  Legacy.getDescendants fuel Sample.loop "1" = None ∧
  Editor.getChildren fuel Sample.loop "1" = None.
Proof.
  split.
  - destruct (Legacy.getDescendants _ _ _) as [l|] eqn:H; [|done].
    destruct self_loop_not_acyclic. by eapply getDescendants_returns_acyclic.
  - destruct (Editor.getChildren _ _ _) as [l|] eqn:H; [|done].
    destruct self_loop_not_acyclic. by eapply getChildren_returns_acyclic.
Qed.

(** Without a reachable cycle both walks return, with any stack deeper
    than the number of edges, and what they return is the descendant set. *)
Lemma walks_return_acyclic (E : list Edge) (a : string) :
  acyclic_from E a →
  ∃ l ch,
    (∀ fuel, length E < fuel → Legacy.getDescendants fuel E a = Some l) ∧
    (∀ fuel, length E < fuel → Editor.getChildren fuel E a = Some ch) ∧
    (∀ b, b ∈ l ↔ descendant E a b) ∧
    (∀ b, b ∈ a :: ch ↔ descendant E a b).
Proof.
  intros Hdepth%acyclic_call_depth.
  pose proof Hdepth as [l Hl]%getDescendants_is_Some.
  pose proof Hdepth as [ch Hch]%getChildren_is_Some.
  exists l, ch. split_and!.
  - intros fuel Hf. by apply (getDescendants_mono E (S (length E))).
  - intros fuel Hf. by apply (getChildren_mono E (S (length E))).
  - by apply (getDescendants_elem E (S (length E))).
  - intros b. rewrite elem_of_cons.
    rewrite (getChildren_elem E _ a ch Hch b).
    unfold descendant. rewrite rtc_tc.
    split; (intros [?|?]; [left|right]); done.
Qed.

(** C1, as stated, fails: on the edge list whose single edge is the
    self-loop [1 -> 1], no stack depth lets [getDescendants "1"] (or the
    [getChildren] of [deleteNode]) return. *)
Lemma getDescendants_cycle_never_returns :
  (¬ ∃ fuel l, Legacy.getDescendants fuel Sample.loop "1" = Some l) ∧
  (¬ ∃ fuel l, Editor.getChildren fuel Sample.loop "1" = Some l).
Proof.
  split; intros (fuel & l & H);
    destruct (loop_walks_never_return fuel); congruence.
Qed.

(** C1, amended: when no cycle is reachable from [a], [getDescendants]
    returns with a stack of one frame more than there are edges and with
    any deeper stack, the result starts with [a], and its elements are
    exactly the nodes reachable from [a]; the [getChildren] of [deleteNode]
    returns under the same condition, and [a] followed by its result has the
    same elements.  Whenever [getDescendants] returns, no cycle is reachable
    from [a], and the result starts with [a] and holds exactly the nodes
    reachable from [a]. *)
Theorem getDescendants_terminates_acyclic (E : list Edge) (a : string) :
  (acyclic_from E a →
   ∃ l ch,
     (∀ fuel, length E < fuel → Legacy.getDescendants fuel E a = Some l) ∧
     (∀ fuel, length E < fuel → Editor.getChildren fuel E a = Some ch) ∧
     head l = Some a ∧
     a ∈ l ∧
     (∀ b, b ∈ l ↔ descendant E a b) ∧
     (∀ b, b ∈ a :: ch ↔ descendant E a b)) ∧
  (∀ fuel l,
     Legacy.getDescendants fuel E a = Some l →
     acyclic_from E a ∧ head l = Some a ∧ (∀ b, b ∈ l ↔ descendant E a b)).
Proof.
  split.
  - intros Hac.
    assert (call_depth (S (length E)) E a) as Hdepth
      by (by apply acyclic_call_depth).
    destruct (proj2 (getDescendants_is_Some E _ a) Hdepth) as [l Hl].
    destruct (proj2 (getChildren_is_Some E _ a) Hdepth) as [ch Hch].
    pose proof (getDescendants_elem E _ a l Hl) as Hmem.
    exists l, ch. split_and!.
    + intros fuel Hf. eapply getDescendants_mono; [exact Hl|lia].
    + intros fuel Hf. eapply getChildren_mono; [exact Hch|lia].
    + by eapply getDescendants_head.
    + apply Hmem, rtc_refl.
    + exact Hmem.
    + intros b. rewrite elem_of_cons, (getChildren_elem E _ a ch Hch b).
      unfold descendant. rewrite rtc_tc.
      split; (intros [?|?]; [left|right]); done.
  - intros fuel l Hl. split_and!.
    + by eapply getDescendants_returns_acyclic.
    + by eapply getDescendants_head.
    + by eapply getDescendants_elem.
Qed.

Lemma getDescendants_terminates_acyclic_witness :
  (acyclic_from Sample.tree "1" ∧
   ∃ l ch,
     (∀ fuel, length Sample.tree < fuel →
              Legacy.getDescendants fuel Sample.tree "1" = Some l) ∧
     (∀ fuel, length Sample.tree < fuel →
              Editor.getChildren fuel Sample.tree "1" = Some ch) ∧
     head l = Some "1" ∧
     "1" ∈ l ∧
     (∀ b, b ∈ l ↔ descendant Sample.tree "1" b) ∧
     (∀ b, b ∈ "1" :: ch ↔ descendant Sample.tree "1" b)) ∧
  (Legacy.getDescendants 3 Sample.tree "1"
     = Some ["1"; "2"; "4"; "2"; "3"; "3"; "4"] ∧
   acyclic_from Sample.tree "1" ∧
   head ["1"; "2"; "4"; "2"; "3"; "3"; "4"] = Some "1" ∧
   (∀ b, b ∈ ["1"; "2"; "4"; "2"; "3"; "3"; "4"]
         ↔ descendant Sample.tree "1" b)).
Proof.
  assert (Legacy.getDescendants 3 Sample.tree "1"
          = Some ["1"; "2"; "4"; "2"; "3"; "3"; "4"]) as Hrun by reflexivity.
  pose proof (proj2 (getDescendants_terminates_acyclic Sample.tree "1")
                    3 _ Hrun) as Hback.
  split.
  - split; [exact (proj1 Hback)|].
    exact (proj1 (getDescendants_terminates_acyclic Sample.tree "1")
                 (proj1 Hback)).
  - split; [exact Hrun|exact Hback].
Defined.

(** ** Subtree deletion (C2) *)

Section history_frame.
Context (n0 : list Editor.Node) (e0 : list Edge) (st : Editor.State).

Lemma pushHistory_nodes :
  Editor.nodes (Editor.pushHistory n0 e0 st) = Editor.nodes st.
Proof. unfold Editor.pushHistory. by destruct (Editor.isSaving st). Qed.

Lemma pushHistory_edges :
  Editor.edges (Editor.pushHistory n0 e0 st) = Editor.edges st.
Proof. unfold Editor.pushHistory. by destruct (Editor.isSaving st). Qed.

Lemma pushHistory_selected :
  Editor.selected (Editor.pushHistory n0 e0 st) = Editor.selected st.
Proof. unfold Editor.pushHistory. by destruct (Editor.isSaving st). Qed.
End history_frame.

(** C2, as stated, fails: with the self-loop [1 -> 1] and node [1]
    selected, [deleteNode] never completes, so node [1], which is in the
    descendant set, is not removed. *)
Lemma deleteNode_cycle_never_returns :
  descendant Sample.loop "1" "1" ∧
  ¬ ∃ fuel st', Editor.deleteNode fuel Sample.loop_state = Some st'.
Proof.
  split; [apply rtc_refl|]. intros (fuel & st' & H).
  unfold Editor.deleteNode in H. simpl in H.
  by rewrite (proj2 (loop_walks_never_return fuel)) in H.
Qed.

(** C2, amended: when no cycle is reachable from the selected node,
    [deleteNode] completes (with any stack deeper than the number of
    edges); it keeps, in order, exactly the nodes whose id is not a
    descendant of the selected node and exactly the edges neither of whose
    endpoints is one, and clears the selection. *)
Theorem deleteNode_removes_subtree (st : Editor.State) (sel : Editor.Node) :
  Editor.selected st = Some sel →
  acyclic_from (Editor.edges st) (Editor.id sel) →
  ∃ (st' : Editor.State) (targets : list string),
    (∀ fuel, length (Editor.edges st) < fuel →
             Editor.deleteNode fuel st = Some st') ∧
    (∀ b, b ∈ targets ↔ descendant (Editor.edges st) (Editor.id sel) b) ∧
    Editor.nodes st' =
      filter (λ nd, Editor.id nd ∉ targets) (Editor.nodes st) ∧
    Editor.edges st' =
      filter (λ ed, (source ed ∉ targets) ∧ (target ed ∉ targets))
             (Editor.edges st) ∧
    (∀ nd, nd ∈ Editor.nodes st' ↔
           nd ∈ Editor.nodes st ∧
           ¬ descendant (Editor.edges st) (Editor.id sel) (Editor.id nd)) ∧
    (∀ ed, ed ∈ Editor.edges st' ↔
           ed ∈ Editor.edges st ∧
           ¬ descendant (Editor.edges st) (Editor.id sel) (source ed) ∧
           ¬ descendant (Editor.edges st) (Editor.id sel) (target ed)) ∧
    Editor.selected st' = None.
Proof.
  intros Hsel Hac.
  destruct (walks_return_acyclic _ _ Hac) as (_ & ch & _ & Hch & _ & Hdesc).
  set (targets := Editor.id sel :: ch) in *.
  set (st1 := Editor.pushHistory (Editor.nodes st) (Editor.edges st) st).
  exists (Editor.setSelected None
            (Editor.setEdges
               (filter (λ ed, (source ed ∉ targets) ∧ (target ed ∉ targets))
                       (Editor.edges st1))
               (Editor.setNodes
                  (filter (λ nd, Editor.id nd ∉ targets) (Editor.nodes st1))
                  st1))), targets.
  split_and!.
  - intros fuel Hf. unfold Editor.deleteNode. rewrite Hsel.
    by rewrite (Hch fuel Hf).
  - done.
  - simpl. unfold st1. by rewrite pushHistory_nodes.
  - simpl. unfold st1. by rewrite pushHistory_edges.
  - intros nd. simpl. unfold st1. rewrite pushHistory_nodes.
    rewrite list_elem_of_filter, Hdesc. tauto.
  - intros ed. simpl. unfold st1. rewrite pushHistory_edges.
    rewrite list_elem_of_filter, !Hdesc. tauto.
  - done.
Qed.

Lemma deleteNode_removes_subtree_witness :
  Editor.selected Sample.tree_state = Some Sample.root ∧
  acyclic_from (Editor.edges Sample.tree_state) "1" ∧
  ∃ (st' : Editor.State) (targets : list string),
    (∀ fuel, length (Editor.edges Sample.tree_state) < fuel →
             Editor.deleteNode fuel Sample.tree_state = Some st') ∧
    (∀ b, b ∈ targets ↔ descendant (Editor.edges Sample.tree_state) "1" b) ∧
    Editor.nodes st' =
      filter (λ nd, Editor.id nd ∉ targets) (Editor.nodes Sample.tree_state) ∧
    Editor.edges st' =
      filter (λ ed, (source ed ∉ targets) ∧ (target ed ∉ targets))
             (Editor.edges Sample.tree_state) ∧
    (∀ nd, nd ∈ Editor.nodes st' ↔
           nd ∈ Editor.nodes Sample.tree_state ∧
           ¬ descendant (Editor.edges Sample.tree_state) "1" (Editor.id nd)) ∧
    (∀ ed, ed ∈ Editor.edges st' ↔
           ed ∈ Editor.edges Sample.tree_state ∧
           ¬ descendant (Editor.edges Sample.tree_state) "1" (source ed) ∧
           ¬ descendant (Editor.edges Sample.tree_state) "1" (target ed)) ∧
    Editor.selected st' = None.
Proof.
  assert (acyclic_from (Editor.edges Sample.tree_state) "1") as Hac.
  { apply (getChildren_returns_acyclic 3 _ _ ["2"; "3"; "4"]). reflexivity. }
  split; [reflexivity|]. split; [exact Hac|].
  exact (deleteNode_removes_subtree Sample.tree_state Sample.root eq_refl Hac).
Defined.

(** On the sample tree, deleting the root's subtree leaves the second tree. *)
Example deleteNode_tree_state :
  Editor.nodes <$> Editor.deleteNode 5 Sample.tree_state
    = Some [Sample.plain "5" 100 300; Sample.plain "6" 340 300] ∧
  Editor.edges <$> Editor.deleteNode 5 Sample.tree_state
    = Some [mkEdge "e56" "5" "6" None None].
Proof. split; vm_compute; reflexivity. Qed.

(** ** The history stack (C5, C6, C3) *)

Section history.
Import Editor.

Lemma slice_last_length {A} k (l : list A) :
  length (slice_last k l) = length l `min` k.
Proof. unfold slice_last. rewrite length_drop. lia. Qed.

Lemma slice_last_all {A} k (l : list A) :
  length l ≤ k → slice_last k l = l.
Proof.
  intros H. unfold slice_last. by replace (length l - k) with 0 by lia.
Qed.

Lemma slice_last_snoc {A} k (l : list A) a :
  slice_last (S k) (l ++ [a]) = slice_last k l ++ [a].
Proof.
  unfold slice_last. rewrite length_app. simpl.
  replace (length l + 1 - S k) with (length l - k) by lia.
  rewrite drop_app_le; [done|lia].
Qed.

Lemma pop_snoc {A} (l : list A) a : pop (l ++ [a]) = l.
Proof.
  unfold pop. rewrite length_app. simpl.
  replace (length l + 1 - 1) with (length l) by lia.
  apply take_app_length.
Qed.

Lemma pop_length {A} (l : list A) : length (pop l) = length l - 1.
Proof. unfold pop. rewrite length_take. lia. Qed.

Lemma pushHistory_history n0 e0 st :
  history (pushHistory n0 e0 st) =
    if isSaving st then history st
    else slice_last 20 (history st) ++ [mkSnapshot n0 e0].
Proof. unfold pushHistory. by destruct (isSaving st). Qed.

Lemma pushHistory_isSaving n0 e0 st :
  isSaving (pushHistory n0 e0 st) = true.
Proof. unfold pushHistory. by destruct (isSaving st) eqn:?. Qed.

Lemma pushHistory_locked n0 e0 st :
  isSaving st = true → pushHistory n0 e0 st = st.
Proof. unfold pushHistory. by intros ->. Qed.

Lemma pushHistory_length n0 e0 st :
  length (history st) ≤ 21 → length (history (pushHistory n0 e0 st)) ≤ 21.
Proof.
  intros H. rewrite pushHistory_history. destruct (isSaving st); [done|].
  rewrite length_app, slice_last_length. simpl. lia.
Qed.

Lemma undo_history st :
  history (undo st) =
    if decide (length (history st) < 2) then history st
    else pop (history st).
Proof. unfold undo. by case_decide. Qed.

Lemma undo_length st :
  length (history (undo st)) =
    if decide (length (history st) < 2) then length (history st)
    else length (history st) - 1.
Proof. rewrite undo_history. case_decide; [done|apply pop_length]. Qed.

Lemma serve_length st r :
  length (history st) ≤ 21 → length (history (serve st r)) ≤ 21.
Proof.
  intros H. destruct r; simpl; [by apply pushHistory_length|done|].
  rewrite undo_length. case_decide; lia.
Qed.

Lemma serveAll_length rs st :
  length (history st) ≤ 21 → length (history (serveAll rs st)) ≤ 21.
Proof.
  unfold serveAll. revert st. induction rs as [|r rs IH]; intros st H; [done|].
  simpl. by apply IH, serve_length.
Qed.

Lemma spaced_length ps st :
  length (history st) ≤ 21 →
  length (history (serveAll (spaced ps) st)) =
    (length (history st) + length ps) `min` 21.
Proof.
  unfold serveAll. revert st.
  induction ps as [|p ps IH]; intros st H; simpl; [lia|].
  rewrite IH; rewrite pushHistory_history; simpl;
    rewrite length_app, slice_last_length; simpl; lia.
Qed.

Lemma undo_iter_length j st :
  1 ≤ length (history st) →
  length (history (Nat.iter j undo st)) = (length (history st) - j) `max` 1.
Proof.
  intros H. induction j as [|j IH]; simpl; [lia|].
  rewrite undo_length, IH. case_decide; lia.
Qed.

Lemma undo_short st : length (history st) < 2 → undo st = st.
Proof. intros H. unfold undo. by case_decide. Qed.

End history.

(** C5: the history never holds more than 21 entries, whatever requests
    are served, from the initial state or from any state within the bound;
    a push onto a full stack drops the oldest entry; and after more than 21
    pushes, each made after the timer expired, the stack holds 21 entries,
    each of the next 20 undos removes one, and no further undo has any
    effect. *)
Theorem history_bounded_21 :
  (∀ rs, length (Editor.history (Editor.serveAll rs Editor.initial)) ≤ 21) ∧
  (∀ rs st, length (Editor.history st) ≤ 21 →
            length (Editor.history (Editor.serveAll rs st)) ≤ 21) ∧
  (∀ n0 e0 st, Editor.isSaving st = false →
               length (Editor.history st) = 21 →
               Editor.history (Editor.pushHistory n0 e0 st) =
                 drop 1 (Editor.history st) ++ [Editor.mkSnapshot n0 e0]) ∧
  (∀ ps st, length (Editor.history st) ≤ 21 → 21 < length ps →
     let st' := Editor.serveAll (Editor.spaced ps) st in
     length (Editor.history st') = 21 ∧
     (∀ j, j ≤ 20 →
           length (Editor.history (Nat.iter j Editor.undo st')) = 21 - j) ∧
     (∀ j, 20 ≤ j →
           Nat.iter j Editor.undo st' = Nat.iter 20 Editor.undo st')).
Proof.
  split_and!.
  - intros rs. apply serveAll_length. simpl. lia.
  - apply serveAll_length.
  - intros n0 e0 st Hfree Hfull. rewrite pushHistory_history, Hfree.
    unfold Editor.slice_last. by rewrite Hfull.
  - intros ps st Hst Hps st'.
    assert (length (Editor.history st') = 21) as Hlen.
    { unfold st'. rewrite spaced_length by done. lia. }
    assert (∀ j, length (Editor.history (Nat.iter j Editor.undo st'))
                 = (21 - j) `max` 1) as Hiter.
    { intros j. rewrite undo_iter_length, Hlen; lia. }
    split_and!; [done| |].
    + intros j Hj. rewrite Hiter. lia.
    + intros j Hj. replace j with ((j - 20) + 20) by lia.
      induction (j - 20) as [|m IH]; [done|].
      change (S m + 20) with (S (m + 20)). rewrite Nat.iter_succ, IH.
      apply undo_short. rewrite Hiter. lia.
Qed.

Lemma history_bounded_21_witness :
  let st' := Editor.serveAll
               (Editor.spaced (replicate 22 (Editor.mkSnapshot [] [])))
               Sample.opened in
  length (Editor.history st') = 21 ∧
  (∀ j, j ≤ 20 →
        length (Editor.history (Nat.iter j Editor.undo st')) = 21 - j) ∧
  (∀ j, 20 ≤ j → Nat.iter j Editor.undo st' = Nat.iter 20 Editor.undo st').
Proof.
  apply (proj2 (proj2 (proj2 history_bounded_21))); simpl; lia.
Defined.

(** With two entries or more, [undo] pops the top one and applies the one
    below it. *)
Lemma undo_pops (st : Editor.State) :
  2 ≤ length (Editor.history st) →
  ∃ h prev top,
    Editor.history st = h ++ [prev; top] ∧
    Editor.undo st =
      Editor.setHistory (h ++ [prev])
        (Editor.setEdges (Editor.e prev)
           (Editor.setNodes (Editor.n prev) st)).
Proof.
  intros Hlen.
  destruct (Editor.history st) as [|top' h'] eqn:Hh using rev_ind;
    [simpl in Hlen; lia|].
  clear IHh'.
  destruct h' as [|prev' h] using rev_ind;
    [simpl in Hlen; lia|]. clear IHh.
  exists h, prev', top'. split; [by rewrite <-app_assoc|].
  unfold Editor.undo. rewrite Hh. case_decide as Hc.
  { rewrite !length_app in Hc. simpl in Hc. lia. }
  by rewrite pop_snoc, last_snoc.
Qed.

(** C6: with fewer than two history entries [undo] changes nothing; with
    two or more it drops the top entry and makes the nodes and edges of
    the entry below it the current graph, leaving everything else as it
    was. *)
Theorem undo_spec (st : Editor.State) :
  (length (Editor.history st) < 2 → Editor.undo st = st) ∧
  (2 ≤ length (Editor.history st) →
   ∃ h prev top,
     Editor.history st = h ++ [prev; top] ∧
     Editor.undo st =
       Editor.setHistory (h ++ [prev])
         (Editor.setEdges (Editor.e prev)
            (Editor.setNodes (Editor.n prev) st)) ∧
     Editor.history (Editor.undo st) = h ++ [prev] ∧
     Editor.nodes (Editor.undo st) = Editor.n prev ∧
     Editor.edges (Editor.undo st) = Editor.e prev).
Proof.
  split; [apply undo_short|]. intros Hlen.
  destruct (undo_pops st Hlen) as (h & prev & top & Hh & Hundo).
  exists h, prev, top. split_and!; [done|done|by rewrite Hundo..].
Qed.

Lemma undo_spec_witness :
  (length (Editor.history Sample.opened) < 2 ∧
   Editor.undo Sample.opened = Sample.opened) ∧
  (2 ≤ length (Editor.history Sample.one_child) ∧
   ∃ h prev top,
     Editor.history Sample.one_child = h ++ [prev; top] ∧
     Editor.undo Sample.one_child =
       Editor.setHistory (h ++ [prev])
         (Editor.setEdges (Editor.e prev)
            (Editor.setNodes (Editor.n prev) Sample.one_child)) ∧
     Editor.history (Editor.undo Sample.one_child) = h ++ [prev] ∧
     Editor.nodes (Editor.undo Sample.one_child) = Editor.n prev ∧
     Editor.edges (Editor.undo Sample.one_child) = Editor.e prev).
Proof.
  split.
  - assert (length (Editor.history Sample.opened) < 2) as H by (simpl; lia).
    split; [exact H|]. exact (proj1 (undo_spec Sample.opened) H).
  - assert (2 ≤ length (Editor.history Sample.one_child)) as H
        by (simpl; lia).
    split; [exact H|]. exact (proj2 (undo_spec Sample.one_child) H).
Defined.

(** ** Undo after adding a child (C3) *)

(** What [addNode] commits to the history: when the lock is free, only the
    state before the addition; the second [pushHistory] of the same call
    always finds the lock taken by the first. *)
Lemma addNode_history i ei st sel :
  Editor.selected st = Some sel →
  Editor.history (Editor.addNode i ei st) =
    if Editor.isSaving st then Editor.history st
    else Editor.slice_last 20 (Editor.history st) ++
           [Editor.mkSnapshot (Editor.nodes st) (Editor.edges st)].
Proof.
  intros Hsel. unfold Editor.addNode. rewrite Hsel.
  rewrite pushHistory_locked; [|apply pushHistory_isSaving].
  simpl. apply pushHistory_history.
Qed.

Lemma addNode_nodes i ei st sel :
  Editor.selected st = Some sel →
  Editor.nodes (Editor.addNode i ei st) =
    Editor.nodes st ++ [Editor.newNode i sel (Editor.nodes st)].
Proof.
  intros Hsel. unfold Editor.addNode. rewrite Hsel.
  by rewrite pushHistory_nodes.
Qed.

Lemma addNode_edges i ei st sel :
  Editor.selected st = Some sel →
  Editor.edges (Editor.addNode i ei st) =
    Editor.edges st ++ [mkEdge ei (Editor.id sel) i None None].
Proof.
  intros Hsel. unfold Editor.addNode. rewrite Hsel.
  by rewrite pushHistory_edges.
Qed.

(** One undo after an addition made with the lock free restores the graph
    of the entry that was on top of the history before the addition, not
    the graph the addition started from. *)
Lemma undo_addNode i ei st sel h top :
  Editor.selected st = Some sel →
  Editor.isSaving st = false →
  Editor.history st = h ++ [top] →
  Editor.nodes (Editor.undo (Editor.addNode i ei st)) = Editor.n top ∧
  Editor.edges (Editor.undo (Editor.addNode i ei st)) = Editor.e top.
Proof.
  intros Hsel Hfree Hh.
  pose proof (addNode_history i ei st sel Hsel) as Hadd.
  rewrite Hfree, Hh in Hadd.
  destruct (Editor.slice_last 20 (h ++ [top])) as [|top' h'] eqn:Hs
    using rev_ind.
  { apply (f_equal length) in Hs. rewrite slice_last_length, length_app in Hs.
    simpl in Hs. lia. }
  clear IHh'.
  assert (top' = top) as ->.
  { change 20 with (S 19) in Hs. rewrite slice_last_snoc in Hs.
    by apply app_inj_tail in Hs as [_ ?]. }
  rewrite <-app_assoc in Hadd. simpl in Hadd.
  destruct (undo_pops (Editor.addNode i ei st))
    as (h0 & prev & top0 & Heq & ->).
  { rewrite Hadd, length_app. simpl. lia. }
  simpl.
  rewrite Hadd in Heq.
  change [prev; top0] with ([prev] ++ [top0]) in Heq.
  change [top; Editor.mkSnapshot (Editor.nodes st) (Editor.edges st)]
    with ([top] ++ [Editor.mkSnapshot (Editor.nodes st) (Editor.edges st)])
    in Heq.
  rewrite !app_assoc in Heq.
  apply app_inj_tail in Heq as [Heq _].
  by apply app_inj_tail in Heq as [_ ->].
Qed.

(** C3 on the code: open a one-node document, select the root, add a
    child and let the timer expire: two nodes, one edge, two history
    entries.  Adding a second child and undoing once leaves one node and no
    edge, not the two nodes and one edge the addition started from. *)
Theorem undo_after_addNode_skips_a_state :
  length (Editor.nodes Sample.one_child) = 2 ∧
  length (Editor.edges Sample.one_child) = 1 ∧
  length (Editor.history Sample.one_child) = 2 ∧
  Editor.isSaving Sample.one_child = false ∧
  let st' := Editor.undo (Editor.addNode "b" "eb" Sample.one_child) in
  length (Editor.nodes st') = 1 ∧ length (Editor.edges st') = 0.
Proof. vm_compute. tauto. Qed.

(** ** Placement of a new child (C7) *)

Section layout.
Import Editor.




End layout.




(** The third child of a parent at (100, 100) with two children already in
    the column is placed at (340, 220). *)
Example addNode_third_child :
  Editor.position <$>
    last (Editor.nodes
            (Editor.addChildren [(true, "b", "eb"); (true, "c", "ec")]
                                Sample.one_child))
    = Some (mkPosition 340 220).
Proof. vm_compute. reflexivity. Qed.

(** ** Renaming a node (C9) *)

(** C9: [updateLabel] leaves the edges alone and maps the node list
    position by position; a node with the given id keeps its id, type,
    position, colour and hidden flag and gets the new label, every other
    node is unchanged. *)
Theorem updateLabel_frame (i l : string) (st : Editor.State) :
  Editor.edges (Editor.updateLabel i l st) = Editor.edges st ∧
  length (Editor.nodes (Editor.updateLabel i l st))
    = length (Editor.nodes st) ∧
  ∀ k nd,
    Editor.nodes st !! k = Some nd →
    ∃ nd',
      Editor.nodes (Editor.updateLabel i l st) !! k = Some nd' ∧
      Editor.id nd' = Editor.id nd ∧
      Editor.type nd' = Editor.type nd ∧
      Editor.position nd' = Editor.position nd ∧
      Editor.color (Editor.data nd') = Editor.color (Editor.data nd) ∧
      Editor.hidden nd' = Editor.hidden nd ∧
      (Editor.id nd = i → Editor.label (Editor.data nd') = l) ∧
      (Editor.id nd ≠ i → nd' = nd).
Proof.
  unfold Editor.updateLabel. simpl. split_and!.
  - apply pushHistory_edges.
  - apply length_fmap.
  - intros k nd Hk. rewrite list_lookup_fmap, Hk. simpl.
    eexists. split; [done|]. by case_decide.
Qed.

Lemma updateLabel_frame_witness :
  Editor.nodes Sample.one_child !! 0 = Some Sample.root ∧
  ∃ nd',
    Editor.nodes (Editor.updateLabel "1" "Root" Sample.one_child) !! 0
      = Some nd' ∧
    Editor.id nd' = "1" ∧
    Editor.type nd' = "custom" ∧
    Editor.position nd' = mkPosition 100 100 ∧
    Editor.color (Editor.data nd') = Some "#333" ∧
    Editor.hidden nd' = None ∧
    ("1" = "1" → Editor.label (Editor.data nd') = "Root") ∧
    ("1" ≠ "1" → nd' = Sample.root).
Proof.
  split; [reflexivity|].
  exact (proj2 (proj2 (updateLabel_frame "1" "Root" Sample.one_child))
               0 Sample.root eq_refl).
Defined.

(** The first revisions replace the whole [data] object, which there holds
    nothing but the label. *)
Lemma updateNodeLabel_frame (i l : string) (st : Legacy.State) :
  Legacy.edges (Legacy.updateNodeLabel i l st) = Legacy.edges st ∧
  ∀ k nd,
    Legacy.nodes st !! k = Some nd →
    ∃ nd',
      Legacy.nodes (Legacy.updateNodeLabel i l st) !! k = Some nd' ∧
      Legacy.id nd' = Legacy.id nd ∧
      Legacy.type nd' = Legacy.type nd ∧
      Legacy.position nd' = Legacy.position nd ∧
      Legacy.hidden nd' = Legacy.hidden nd ∧
      (Legacy.id nd = i → Legacy.data nd' = Legacy.mkData l) ∧
      (Legacy.id nd ≠ i → nd' = nd).
Proof.
  unfold Legacy.updateNodeLabel. simpl. split; [done|].
  intros k nd Hk. rewrite list_lookup_fmap, Hk. simpl.
  eexists. split; [done|]. by case_decide.
Qed.

(** ** The colour of a new child (C10) *)

Lemma NoDup_fmap_elem_inj {A B} (f : A → B) (l : list A) a b :
  NoDup (f <$> l) → a ∈ l → b ∈ l → f a = f b → a = b.
Proof.
  intros Hnd (j & Hj)%list_elem_of_lookup (k & Hk)%list_elem_of_lookup Hab.
  assert (j = k) as ->; [|congruence].
  eapply NoDup_lookup; [done| |].
  - by rewrite list_lookup_fmap, Hj.
  - rewrite list_lookup_fmap, Hk. simpl. by rewrite Hab.
Qed.

(** C10, as stated, fails: select the root, recolour it, add a child.  The
    root in the node list is red, the child has the colour the root had
    when it was clicked. *)
Lemma addNode_colour_of_stale_selection :
  ∃ parent child,
    Editor.nodes (Editor.addNode "a" "ea" Sample.recoloured)
      = [parent; child] ∧
    Editor.id <$> Editor.selected Sample.recoloured = Some "1" ∧
    Editor.id parent = "1" ∧
    Editor.color (Editor.data parent) = Some "#dc3545" ∧
    Editor.color (Editor.data child) = Some "#333" ∧
    Editor.color (Editor.data child) ≠ Editor.color (Editor.data parent).
Proof. do 2 eexists. vm_compute. split_and!; done. Qed.

(** C10, amended: the new child gets the colour recorded in the selection,
    that is, the colour the parent had when it was clicked; this is the
    colour the parent has in the node list whenever the selected node is
    still a member of the node list and ids are unique. *)
Theorem addNode_colour (i ei : string) (st : Editor.State) (sel : Editor.Node) :
  Editor.selected st = Some sel →
  ∃ child,
    last (Editor.nodes (Editor.addNode i ei st)) = Some child ∧
    Editor.id child = i ∧
    Editor.color (Editor.data child) = Editor.color (Editor.data sel) ∧
    (sel ∈ Editor.nodes st → NoDup (Editor.id <$> Editor.nodes st) →
     ∀ parent, parent ∈ Editor.nodes st → Editor.id parent = Editor.id sel →
               Editor.color (Editor.data child)
               = Editor.color (Editor.data parent)).
Proof.
  intros Hsel. exists (Editor.newNode i sel (Editor.nodes st)).
  rewrite (addNode_nodes i ei st sel Hsel), last_snoc.
  split_and!; [done..|].
  intros Hin Hnd parent Hp Hid. simpl.
  by rewrite (NoDup_fmap_elem_inj Editor.id _ parent sel Hnd Hp Hin Hid).
Qed.

Lemma addNode_colour_witness :
  Editor.selected Sample.one_child = Some Sample.root ∧
  ∃ child,
    last (Editor.nodes (Editor.addNode "b" "eb" Sample.one_child))
      = Some child ∧
    Editor.id child = "b" ∧
    Editor.color (Editor.data child) = Some "#333" ∧
    (Sample.root ∈ Editor.nodes Sample.one_child →
     NoDup (Editor.id <$> Editor.nodes Sample.one_child) →
     ∀ parent, parent ∈ Editor.nodes Sample.one_child →
               Editor.id parent = "1" →
               Editor.color (Editor.data child)
               = Editor.color (Editor.data parent)).
Proof.
  split; [reflexivity|].
  exact (addNode_colour "b" "eb" Sample.one_child Sample.root eq_refl).
Defined.

(** ** Loading the stored catalog (C8) *)

(** C8, as stated, fails: a stored text that is not JSON makes the listing
    and the opening of a document raise [SyntaxError]. *)
Lemma corrupt_catalog_raises :
  Editor.MapListView_maps (Editor.Corrupt "{") ≠ Editor.Ok (Editor.JObject ∅) ∧
  Editor.MapListView_maps (Editor.Corrupt "{")
    = Editor.Throw Editor.SyntaxError ∧
  Editor.onSelect "m" (Editor.Corrupt "{") Editor.initial
    = Editor.Throw Editor.SyntaxError.
Proof. split_and!; done. Qed.

(** C8, amended: with no stored item or an empty one the listing is the
    empty mapping and nothing is raised, and a stored catalog object is
    listed as it is; a stored [null] makes the render of the list raise
    [TypeError]; a corrupt item is not recovered from: listing, opening and
    creating all raise the parser's [SyntaxError]. *)
Theorem catalog_load :
  Editor.MapListView_maps Editor.Absent = Editor.Ok (Editor.JObject ∅) ∧
  Editor.MapListView_maps Editor.EmptyString = Editor.Ok (Editor.JObject ∅) ∧
  Editor.MapListView_listed Editor.Absent = Editor.Ok ∅ ∧
  Editor.MapListView_listed Editor.EmptyString = Editor.Ok ∅ ∧
  (∀ m, Editor.MapListView_listed (Editor.Json (Editor.JObject m))
        = Editor.Ok m) ∧
  Editor.MapListView_listed (Editor.Json Editor.JNull)
    = Editor.Throw Editor.TypeError ∧
  (∀ raw, Editor.MapListView_maps (Editor.Corrupt raw)
          = Editor.Throw Editor.SyntaxError) ∧
  (∀ raw, Editor.MapListView_listed (Editor.Corrupt raw)
          = Editor.Throw Editor.SyntaxError) ∧
  (∀ raw i st, Editor.onSelect i (Editor.Corrupt raw) st
               = Editor.Throw Editor.SyntaxError) ∧
  (∀ raw i st, Editor.onCreate i (Editor.Corrupt raw) st
               = Editor.Throw Editor.SyntaxError).
Proof. split_and!; done. Qed.

(** Opening has no guard for a missing or empty item, where [onCreate] and
    the autosave write [|| '{}']: it raises.  In an empty catalog, opening
    an id that [Object.prototype] does not define raises as well. *)
Lemma onSelect_without_catalog_raises i st :
  Editor.onSelect i Editor.Absent st = Editor.Throw Editor.TypeError ∧
  Editor.onSelect i Editor.EmptyString st = Editor.Throw Editor.SyntaxError ∧
  (i ∉ Editor.Object_prototype_keys →
   Editor.onSelect i (Editor.Json (Editor.JObject ∅)) st
   = Editor.Throw Editor.TypeError) ∧
  ∃ stored st',
    Editor.onCreate i Editor.Absent st = Editor.Ok (stored, st') ∧
    Editor.onCreate i Editor.EmptyString st = Editor.Ok (stored, st').
Proof. split_and!; [done..|]. by do 2 eexists. Qed.

(** Opening a stored document loads its graph and starts the history with
    one entry. *)
Lemma onSelect_opens :
  Editor.onSelect "m" Sample.catalog Editor.initial = Editor.Ok Sample.opened.
Proof. vm_compute. reflexivity. Qed.

(** ** The collapse toggle (C4) *)

Section toggle.
Import Legacy.

Lemma hiddenOf_unique nds nd :
  NoDup (id <$> nds) → nd ∈ nds → hiddenOf nds (id nd) = hidden nd.
Proof.
  intros Hnd Hin. unfold hiddenOf.
  destruct (List.find _ nds) as [x|] eqn:Hfind; simpl.
  - apply find_some in Hfind as [Hx Hid].
    apply bool_decide_eq_true in Hid. apply list_elem_of_In in Hx.
    by rewrite (NoDup_fmap_elem_inj id nds x nd Hnd Hx Hin Hid).
  - apply list_elem_of_In in Hin.
    apply (find_none _ _ Hfind) in Hin.
    by apply bool_decide_eq_false in Hin.
Qed.

Lemma toggled_id childIds nds nd : id (toggled childIds nds nd) = id nd.
Proof. unfold toggled. by case_decide. Qed.



End toggle.




(** ** Subtree deletion in the first revisions *)

Lemma Legacy_deleteNode_removes_subtree (st : Legacy.State) (sel : Legacy.Node) :
  Legacy.selectedNode st = Some sel →
  acyclic_from (Legacy.edges st) (Legacy.id sel) →
  ∃ (st' : Legacy.State),
    (∀ fuel, length (Legacy.edges st) < fuel →
             Legacy.deleteNode fuel st = Some st') ∧
    (∀ nd, nd ∈ Legacy.nodes st' ↔
           nd ∈ Legacy.nodes st ∧
           ¬ descendant (Legacy.edges st) (Legacy.id sel) (Legacy.id nd)) ∧
    (∀ ed, ed ∈ Legacy.edges st' ↔
           ed ∈ Legacy.edges st ∧
           ¬ descendant (Legacy.edges st) (Legacy.id sel) (source ed) ∧
           ¬ descendant (Legacy.edges st) (Legacy.id sel) (target ed)) ∧
    Legacy.selectedNode st' = None.
Proof.
  intros Hsel Hac.
  destruct (walks_return_acyclic _ _ Hac) as (l & _ & Hl & _ & Hdesc & _).
  eexists. split_and!.
  - intros fuel Hf. unfold Legacy.deleteNode. rewrite Hsel, (Hl fuel Hf).
    reflexivity.
  - intros nd. simpl. rewrite list_elem_of_filter, Hdesc. tauto.
  - intros ed. simpl. rewrite list_elem_of_filter, !Hdesc. tauto.
  - done.
Qed.

(** ** Placement in the first revisions *)

(** There the column is 250 to the right, the rows are 100 apart, and the
    row is the number of edges that leave the parent. *)
Lemma Legacy_addNode_placement i ei (st : Legacy.State) (sel : Legacy.Node) :
  Legacy.selectedNode st = Some sel →
  ∃ child,
    Legacy.nodes (Legacy.addNode i ei st) = Legacy.nodes st ++ [child] ∧
    Legacy.position child =
      mkPosition (x (Legacy.position sel) + 250)
                 (y (Legacy.position sel) +
                  Z.of_nat (length (outgoing (Legacy.edges st) (Legacy.id sel)))
                  * 100).
Proof.
  intros Hsel. unfold Legacy.addNode. rewrite Hsel. by eexists.
Qed.

(** * Further properties of the code *)

(** ** The two walks compared *)

(** The walk of the first revisions and the walk of the last one return
    for the same stack depths, and then name the same ids. *)
Theorem walks_agree (fuel : nat) (E : list Edge) (a : string) :
  (is_Some (Legacy.getDescendants fuel E a)
   ↔ is_Some (Editor.getChildren fuel E a)) ∧
  (∀ l ch,
     Legacy.getDescendants fuel E a = Some l →
     Editor.getChildren fuel E a = Some ch →
     ∀ b, b ∈ l ↔ b ∈ a :: ch).
Proof.
  split.
  - by rewrite getDescendants_is_Some, getChildren_is_Some.
  - intros l ch Hl Hch b.
    rewrite (getDescendants_elem E fuel a l Hl b), elem_of_cons.
    rewrite (getChildren_elem E fuel a ch Hch b).
    unfold descendant. rewrite rtc_tc.
    split; (intros [?|?]; [left|right]); done.
Qed.

Lemma walks_agree_witness :
  Legacy.getDescendants 3 Sample.tree "1"
    = Some ["1"; "2"; "4"; "2"; "3"; "3"; "4"] ∧
  Editor.getChildren 3 Sample.tree "1" = Some ["2"; "3"; "4"] ∧
  ∀ b, b ∈ ["1"; "2"; "4"; "2"; "3"; "3"; "4"] ↔ b ∈ ["1"; "2"; "3"; "4"].
Proof.
  split; [reflexivity|]. split; [reflexivity|].
  exact (proj2 (walks_agree 3 Sample.tree "1") _ _ eq_refl eq_refl).
Defined.

(** ** Documents without cycles *)

Section acyclic.

Lemma tc_first_step {A} (R : relation A) a b : tc R a b → ∃ c, R a c.
Proof. destruct 1; eauto. Qed.

Lemma acyclic_acyclic_from E a : acyclic E → acyclic_from E a.
Proof. intros H b _. apply H. Qed.

Lemma acyclic_nil : acyclic [].
Proof.
  intros b (c & e & He & _)%tc_first_step. by apply elem_of_nil in He.
Qed.

Lemma acyclic_sub E E' :
  (∀ ed, ed ∈ E' → ed ∈ E) → acyclic E → acyclic E'.
Proof.
  intros Hsub Hac b Hb. apply (Hac b).
  eapply (tc_congruence (λ i, i)); [|exact Hb].
  intros i j (ed & He & Hs & Ht). exists ed. auto.
Qed.

(** Appending an edge into a node that no edge leaves cannot close a cycle. *)
Lemma acyclic_snoc E ed :
  acyclic E → source ed ≠ target ed →
  (∀ e', e' ∈ E → source e' ≠ target ed) →
  acyclic (E ++ [ed]).
Proof.
  intros Hac Hne Hfresh.
  assert (∀ c, ¬ step E (target ed) c) as Hleaf.
  { intros c (e' & He' & Hs & _). by apply (Hfresh e'). }
  assert (∀ a b, tc (step (E ++ [ed])) a b →
                 tc (step E) a b ∨ b = target ed) as Hinv.
  { intros a b Hab. induction Hab as [a b Hab|a c b Hac' _ IH].
    - destruct Hab as (e' & He' & Hs & Ht).
      apply elem_of_app in He' as [He'|He'%list_elem_of_singleton]; [|subst e'].
      + left. apply tc_once. by exists e'.
      + by right.
    - destruct IH as [Hcb | ->]; [|by right].
      destruct Hac' as (e' & He' & Hs & Ht).
      apply elem_of_app in He' as [He'|He'%list_elem_of_singleton]; [|subst e'].
      + left. eapply tc_l; [|done]. by exists e'.
      + subst c. apply tc_first_step in Hcb as [c' Hc']. by destruct (Hleaf c'). }
  intros b Hb. destruct (Hinv b b Hb) as [Hbb| ->]; [by apply (Hac b)|].
  apply tc_first_step in Hb as (c & e' & He' & Hs & _).
  apply elem_of_app in He' as [He'|He'%list_elem_of_singleton]; [|subst e'].
  - by apply (Hfresh e').
  - done.
Qed.

Lemma tree_like_push n0 e0 st :
  tree_like st → acyclic e0 → tree_like (Editor.pushHistory n0 e0 st).
Proof.
  intros [Hcur Hhist] He0. split.
  - by rewrite pushHistory_edges.
  - rewrite pushHistory_history. destruct (Editor.isSaving st); [done|].
    apply Forall_app. split; [by apply Forall_drop|].
    by apply Forall_singleton.
Qed.

Lemma tree_like_graph nds eds st :
  tree_like st → acyclic eds →
  tree_like (Editor.setEdges eds (Editor.setNodes nds st)).
Proof. intros [_ Hhist] Heds. by split. Qed.

End acyclic.

(** Clicking, renaming, recolouring, undoing and the timer keep a document
    and its history free of cycles; so does adding a child, as long as the
    fresh id is not the id of the selection and no edge leaves it; and on
    such a document [deleteNode] always completes, with any stack deeper
    than the number of edges, and leaves it free of cycles. *)
Theorem editor_keeps_tree_like (st : Editor.State) :
  tree_like st →
  tree_like (Editor.timeout st) ∧
  tree_like (Editor.undo st) ∧
  (∀ i l, tree_like (Editor.updateLabel i l st)) ∧
  (∀ c, tree_like (Editor.onColorChange c st)) ∧
  (∀ nd, tree_like (Editor.onNodeClick nd st)) ∧
  tree_like (Editor.onPaneClick st) ∧
  (∀ i ei,
     (∀ sel, Editor.selected st = Some sel → Editor.id sel ≠ i) →
     (∀ ed, ed ∈ Editor.edges st → source ed ≠ i) →
     tree_like (Editor.addNode i ei st)) ∧
  (∃ st', tree_like st' ∧
          ∀ fuel, length (Editor.edges st) < fuel →
                  Editor.deleteNode fuel st = Some st').
Proof.
  intros Hst. pose proof Hst as [Hcur Hhist]. split_and!.
  - done.
  - destruct (decide (length (Editor.history st) < 2)) as [Hlen|Hlen].
    { by rewrite undo_short. }
    destruct (undo_pops st) as (h & prev & top & Hh & ->); [lia|].
    rewrite Hh in Hhist.
    change [prev; top] with ([prev] ++ [top]) in Hhist.
    rewrite app_assoc in Hhist.
    apply Forall_app in Hhist as [Hhist _].
    split; [|done]. simpl.
    apply Forall_app in Hhist as [_ Hprev].
    rewrite Forall_singleton in Hprev. exact Hprev.
  - intros i l. unfold Editor.updateLabel.
    destruct (tree_like_push
                ((λ nd, if decide (Editor.id nd = i)
                        then Editor.withLabel l nd else nd)
                   <$> Editor.nodes st) (Editor.edges st) st Hst Hcur)
      as [? ?].
    by split.
  - intros c. unfold Editor.onColorChange.
    destruct (Editor.selected st); [|done].
    destruct (tree_like_push (Editor.nodes st) (Editor.edges st) st Hst Hcur)
      as [? ?].
    by split.
  - done.
  - done.
  - intros i ei Hsel Hfresh. unfold Editor.addNode.
    destruct (Editor.selected st) as [sel|] eqn:Hs; [|done].
    assert (acyclic (Editor.edges st ++
                       [mkEdge ei (Editor.id sel) i None None])) as Hnext.
    { apply acyclic_snoc; [done|by apply Hsel|done]. }
    apply tree_like_push; [|done].
    apply tree_like_graph; [|done].
    by apply tree_like_push.
  - unfold Editor.deleteNode.
    destruct (Editor.selected st) as [sel|] eqn:Hs; [|by exists st].
    destruct (walks_return_acyclic (Editor.edges st) (Editor.id sel))
      as (_ & ch & _ & Hch & _); [by apply acyclic_acyclic_from|].
    eexists. split; [|intros fuel Hf; rewrite (Hch fuel Hf); reflexivity].
    pose proof (tree_like_push (Editor.nodes st) (Editor.edges st) st Hst Hcur)
      as [H1 H2].
    split; [|done]. simpl.
    eapply acyclic_sub; [|exact H1].
    intros ed Hed. by apply list_elem_of_filter in Hed as [_ ?].
Qed.

Lemma one_child_tree_like : tree_like Sample.one_child.
Proof.
  split; simpl.
  - apply (acyclic_snoc []); [apply acyclic_nil|done|].
    intros e' He'. by apply elem_of_nil in He'.
  - repeat constructor; apply acyclic_nil.
Qed.

Lemma editor_keeps_tree_like_witness :
  tree_like Sample.one_child ∧
  tree_like (Editor.undo Sample.one_child) ∧
  tree_like (Editor.addNode "b" "eb" Sample.one_child) ∧
  ∃ st', tree_like st' ∧
         ∀ fuel, length (Editor.edges Sample.one_child) < fuel →
                 Editor.deleteNode fuel Sample.one_child = Some st'.
Proof.
  pose proof (editor_keeps_tree_like Sample.one_child one_child_tree_like)
    as (_ & Hundo & _ & _ & _ & _ & Hadd & Hdel).
  split; [exact one_child_tree_like|]. split; [exact Hundo|].
  split; [|exact Hdel].
  apply Hadd.
  - intros sel [= <-]. done.
  - intros ed Hed. simpl in Hed.
    apply list_elem_of_singleton in Hed as ->. done.
Defined.

(** ** The debounce lock and what undo restores *)

Section undo_after.
Import Editor.

(** The history after a handler that pushes the current graph once. *)
Lemma colorChange_history c st sel :
  selected st = Some sel →
  history (onColorChange c st) =
    history (pushHistory (nodes st) (edges st) st).
Proof. intros Hsel. unfold onColorChange. by rewrite Hsel. Qed.

Lemma deleteNode_history fuel st sel st' :
  selected st = Some sel → deleteNode fuel st = Some st' →
  history st' = history (pushHistory (nodes st) (edges st) st).
Proof.
  intros Hsel. unfold deleteNode. rewrite Hsel.
  destruct (getChildren _ _ _); [|done]. by intros [= <-].
Qed.

(** Undo over a history whose top was pushed onto [h ++ [top]]. *)
Lemma undo_over_push h top snap st' :
  history st' = slice_last 20 (h ++ [top]) ++ [snap] →
  nodes (undo st') = n top ∧ edges (undo st') = e top ∧
  history (undo st') = slice_last 20 (h ++ [top]).
Proof.
  intros Hh. change 20 with (S 19) in Hh. rewrite slice_last_snoc in Hh.
  destruct (undo_pops st') as (h0 & prev & top0 & Heq & ->).
  { rewrite Hh, !length_app. simpl. lia. }
  rewrite Hh in Heq.
  change [prev; top0] with ([prev] ++ [top0]) in Heq.
  rewrite app_assoc in Heq.
  apply app_inj_tail in Heq as [Heq <-].
  apply app_inj_tail in Heq as [Hh0 <-].
  simpl. change 20 with (S 19). rewrite slice_last_snoc. by rewrite Hh0.
Qed.

End undo_after.

(** A push request made while the lock of an earlier one is still held is
    dropped whole; once the timer has fired, the next request is committed
    on top. *)
Theorem pushHistory_debounced n1 e1 n2 e2 (st : Editor.State) :
  Editor.pushHistory n2 e2 (Editor.pushHistory n1 e1 st)
    = Editor.pushHistory n1 e1 st ∧
  last (Editor.history
          (Editor.pushHistory n2 e2
             (Editor.timeout (Editor.pushHistory n1 e1 st))))
    = Some (Editor.mkSnapshot n2 e2).
Proof.
  split.
  - apply pushHistory_locked, pushHistory_isSaving.
  - rewrite pushHistory_history. simpl. apply last_snoc.
Qed.

(** After an undo that has an entry to go back to, the top of the history
    is the graph now shown, and the history is one entry shorter. *)
Theorem undo_makes_synced (st : Editor.State) :
  2 ≤ length (Editor.history st) →
  synced (Editor.undo st) ∧
  length (Editor.history (Editor.undo st)) = length (Editor.history st) - 1.
Proof.
  intros Hlen. split.
  - destruct (undo_pops st Hlen) as (h & prev & top & _ & ->).
    unfold synced. simpl. rewrite last_snoc. by destruct prev.
  - rewrite undo_length. by rewrite decide_False by lia.
Qed.

Lemma undo_makes_synced_witness :
  2 ≤ length (Editor.history Sample.one_child) ∧
  synced (Editor.undo Sample.one_child) ∧
  length (Editor.history (Editor.undo Sample.one_child))
    = length (Editor.history Sample.one_child) - 1.
Proof.
  assert (2 ≤ length (Editor.history Sample.one_child)) as H by (simpl; lia).
  split; [exact H|]. exact (undo_makes_synced Sample.one_child H).
Defined.

(** When the top of the history is the current graph and the lock is free,
    one undo after adding a child, after recolouring, or after deleting a
    subtree brings back exactly the nodes and edges from before that
    command. *)
Theorem undo_restores_when_synced (st : Editor.State) (sel : Editor.Node) :
  synced st → Editor.isSaving st = false → Editor.selected st = Some sel →
  (∀ i ei,
     Editor.nodes (Editor.undo (Editor.addNode i ei st)) = Editor.nodes st ∧
     Editor.edges (Editor.undo (Editor.addNode i ei st)) = Editor.edges st) ∧
  (∀ c,
     Editor.nodes (Editor.undo (Editor.onColorChange c st)) = Editor.nodes st ∧
     Editor.edges (Editor.undo (Editor.onColorChange c st)) = Editor.edges st) ∧
  (∀ fuel st',
     Editor.deleteNode fuel st = Some st' →
     Editor.nodes (Editor.undo st') = Editor.nodes st ∧
     Editor.edges (Editor.undo st') = Editor.edges st).
Proof.
  intros Hsync Hfree Hsel.
  apply last_Some in Hsync as [h Hh].
  assert (∀ st',
            Editor.history st' =
              Editor.history
                (Editor.pushHistory (Editor.nodes st) (Editor.edges st) st) →
            Editor.nodes (Editor.undo st') = Editor.nodes st ∧
            Editor.edges (Editor.undo st') = Editor.edges st) as Hone.
  { intros st' Hst'. rewrite pushHistory_history, Hfree, Hh in Hst'.
    by destruct (undo_over_push _ _ _ _ Hst') as (-> & -> & _). }
  split_and!.
  - intros i ei. apply Hone.
    by rewrite (addNode_history i ei st sel Hsel), pushHistory_history.
  - intros c. apply Hone. by apply colorChange_history with sel.
  - intros fuel st' Hdel. apply Hone. by apply deleteNode_history with fuel sel.
Qed.

Lemma undo_restores_when_synced_witness :
  let st := Editor.onNodeClick Sample.root Sample.opened in
  synced st ∧ Editor.isSaving st = false ∧
  Editor.selected st = Some Sample.root ∧
  (∀ i ei,
     Editor.nodes (Editor.undo (Editor.addNode i ei st)) = Editor.nodes st ∧
     Editor.edges (Editor.undo (Editor.addNode i ei st)) = Editor.edges st) ∧
  (∀ c,
     Editor.nodes (Editor.undo (Editor.onColorChange c st)) = Editor.nodes st ∧
     Editor.edges (Editor.undo (Editor.onColorChange c st)) = Editor.edges st) ∧
  (∀ fuel st',
     Editor.deleteNode fuel st = Some st' →
     Editor.nodes (Editor.undo st') = Editor.nodes st ∧
     Editor.edges (Editor.undo st') = Editor.edges st).
Proof.
  split; [reflexivity|]. split; [reflexivity|]. split; [reflexivity|].
  exact (undo_restores_when_synced
           (Editor.onNodeClick Sample.root Sample.opened) Sample.root
           eq_refl eq_refl eq_refl).
Defined.

(** Opening a document and committing a label with the lock free both
    leave the top of the history equal to the current graph. *)
Theorem synced_established :
  (∀ i s st0 st, Editor.onSelect i s st0 = Editor.Ok st → synced st) ∧
  (∀ i l st, Editor.isSaving st = false → synced (Editor.updateLabel i l st)).
Proof.
  split.
  - intros i s st0 st. unfold Editor.onSelect.
    destruct (Editor.JSON_parse s) as [[|m]|]; [done| |done].
    destruct (m !! i); [|done]. by intros [= <-].
  - intros i l st Hfree. unfold synced, Editor.updateLabel. simpl.
    rewrite pushHistory_history, Hfree, last_snoc.
    by rewrite pushHistory_edges.
Qed.

Lemma synced_established_witness :
  Editor.onSelect "m" Sample.catalog Editor.initial = Editor.Ok Sample.opened ∧
  synced Sample.opened ∧
  Editor.isSaving Sample.one_child = false ∧
  synced (Editor.updateLabel "a" "x" Sample.one_child).
Proof.
  assert (Editor.onSelect "m" Sample.catalog Editor.initial
          = Editor.Ok Sample.opened) as Hopen by (vm_compute; reflexivity).
  split; [exact Hopen|].
  split; [exact (proj1 synced_established _ _ _ _ Hopen)|].
  split; [reflexivity|].
  exact (proj2 synced_established "a" "x" Sample.one_child eq_refl).
Defined.

(** With an empty history, which is what [onCreate] leaves in a fresh
    session, the first addition, recolouring or deletion cannot be undone:
    undo then changes nothing. *)
Theorem first_command_not_undoable :
  (∀ i s stored st',
     Editor.onCreate i s Editor.initial = Editor.Ok (stored, st') →
     Editor.history st' = []) ∧
  (∀ st, Editor.history st = [] →
     (∀ i ei, Editor.undo (Editor.addNode i ei st) = Editor.addNode i ei st) ∧
     (∀ c, Editor.undo (Editor.onColorChange c st)
           = Editor.onColorChange c st) ∧
     (∀ fuel st', Editor.deleteNode fuel st = Some st' →
                  Editor.undo st' = st')).
Proof.
  split.
  - intros i s stored st'. unfold Editor.onCreate.
    destruct (Editor.JSON_parse_or_empty s) as [[|m]|]; [done| |done].
    by intros [= _ <-].
  - intros st Hempty.
    assert (length (Editor.history
                      (Editor.pushHistory (Editor.nodes st) (Editor.edges st)
                                          st)) < 2) as Hpush.
    { rewrite pushHistory_history, Hempty.
      destruct (Editor.isSaving st); simpl; lia. }
    split_and!.
    + intros i ei. apply undo_short.
      destruct (Editor.selected st) as [sel|] eqn:Hsel.
      * rewrite (addNode_history i ei st sel Hsel).
        by rewrite pushHistory_history in Hpush.
      * unfold Editor.addNode. rewrite Hsel, Hempty. simpl. lia.
    + intros c. apply undo_short.
      destruct (Editor.selected st) as [sel|] eqn:Hsel.
      * by rewrite (colorChange_history c st sel Hsel).
      * unfold Editor.onColorChange. rewrite Hsel, Hempty. simpl. lia.
    + intros fuel st' Hdel. apply undo_short.
      destruct (Editor.selected st) as [sel|] eqn:Hsel.
      * by rewrite (deleteNode_history fuel st sel st' Hsel Hdel).
      * unfold Editor.deleteNode in Hdel. rewrite Hsel in Hdel.
        injection Hdel as <-. rewrite Hempty. simpl. lia.
Qed.

Lemma first_command_not_undoable_witness :
  ∃ stored st',
    Editor.onCreate "m" Editor.Absent Editor.initial
      = Editor.Ok (stored, st') ∧
    Editor.history st' = [] ∧
    let st := Editor.onNodeClick Sample.root st' in
    Editor.undo (Editor.addNode "a" "ea" st) = Editor.addNode "a" "ea" st ∧
    length (Editor.nodes (Editor.addNode "a" "ea" st)) = 2.
Proof.
  do 2 eexists. split; [reflexivity|].
  split; [exact (proj1 first_command_not_undoable "m" Editor.Absent _ _ eq_refl)|].
  intros st. split; [|reflexivity].
  exact (proj1 (proj2 first_command_not_undoable st eq_refl) "a" "ea").
Defined.

(** ** Unique ids, no dangling edges *)

Section lists.
Context {A B : Type} (P : A → Prop) `{!∀ a, Decision (P a)}.

Lemma filter_all (l : list A) : (∀ a, a ∈ l → P a) → filter P l = l.
Proof.
  induction l as [|a l IH]; intros Hall; [done|].
  rewrite filter_cons_True by (apply Hall; left).
  f_equal. apply IH. intros b Hb. apply Hall. by right.
Qed.

Lemma filter_none (l : list A) : (∀ a, a ∈ l → ¬ P a) → filter P l = [].
Proof.
  induction l as [|a l IH]; intros Hall; [done|].
  rewrite filter_cons_False by (apply Hall; left).
  apply IH. intros b Hb. apply Hall. by right.
Qed.

Lemma NoDup_fmap_filter (f : A → B) (l : list A) :
  NoDup (f <$> l) → NoDup (f <$> filter P l).
Proof.
  induction l as [|a l IH]; [done|]. rewrite fmap_cons, NoDup_cons.
  intros [Ha Hnd]. rewrite filter_cons. case_decide; [|by apply IH].
  rewrite fmap_cons, NoDup_cons. split; [|by apply IH].
  intros (b & Hb & [_ Hin]%list_elem_of_filter)%list_elem_of_fmap.
  apply Ha. rewrite Hb. by apply list_elem_of_fmap_2.
Qed.

End lists.

Section well_formed.
Import Editor.

Lemma relabel_ids i l (nds : list Node) :
  id <$> ((λ nd, if decide (id nd = i) then withLabel l nd else nd) <$> nds)
  = id <$> nds.
Proof.
  rewrite <-list_fmap_compose. apply list_fmap_ext.
  intros ? nd _. simpl. by case_decide.
Qed.

Lemma recolour_ids i c (nds : list Node) :
  id <$> ((λ nd, if decide (id nd = i) then withColor c nd else nd) <$> nds)
  = id <$> nds.
Proof.
  rewrite <-list_fmap_compose. apply list_fmap_ext.
  intros ? nd _. simpl. by case_decide.
Qed.

End well_formed.

(** Unique node ids, unique edge ids and the absence of dangling edges are
    kept by renaming, by recolouring and by deleting a subtree; adding a
    child keeps them when the selected node is in the document and the two
    fresh ids are new. *)
Theorem editor_keeps_well_formed (st : Editor.State) :
  well_formed st →
  (∀ i l, well_formed (Editor.updateLabel i l st)) ∧
  (∀ c, well_formed (Editor.onColorChange c st)) ∧
  (∀ fuel st', Editor.deleteNode fuel st = Some st' → well_formed st') ∧
  (∀ i ei sel,
     Editor.selected st = Some sel →
     Editor.id sel ∈ Editor.id <$> Editor.nodes st →
     i ∉ Editor.id <$> Editor.nodes st →
     ei ∉ edge_id <$> Editor.edges st →
     well_formed (Editor.addNode i ei st)).
Proof.
  intros (Hids & Heids & Hclosed). split_and!.
  - intros i l. unfold well_formed, Editor.updateLabel. simpl.
    by rewrite relabel_ids, pushHistory_edges.
  - intros c. unfold Editor.onColorChange.
    destruct (Editor.selected st) as [sel|]; [|done].
    unfold well_formed. simpl. by rewrite recolour_ids, pushHistory_edges.
  - intros fuel st'. unfold Editor.deleteNode.
    destruct (Editor.selected st) as [sel|]; [|by intros [= <-]].
    destruct (Editor.getChildren _ _ _) as [ch|]; [|done].
    intros [= <-]. unfold well_formed. simpl.
    rewrite pushHistory_nodes, pushHistory_edges. split_and!.
    + by apply NoDup_fmap_filter.
    + by apply NoDup_fmap_filter.
    + intros ed [[Hs Ht] Hed]%list_elem_of_filter.
      destruct (Hclosed ed Hed)
        as [(ns & Hns & Hins)%list_elem_of_fmap
            (nt & Hnt & Hint)%list_elem_of_fmap].
      split; apply list_elem_of_fmap.
      * exists ns. split; [done|]. apply list_elem_of_filter.
        split; [by rewrite <-Hns|done].
      * exists nt. split; [done|]. apply list_elem_of_filter.
        split; [by rewrite <-Hnt|done].
  - intros i ei sel Hsel Hin Hi Hei. unfold well_formed.
    rewrite (addNode_nodes i ei st sel Hsel), (addNode_edges i ei st sel Hsel).
    rewrite !fmap_app. simpl. split_and!.
    + apply NoDup_app. split_and!; [done| |apply NoDup_singleton].
      intros j Hj ->%list_elem_of_singleton. done.
    + apply NoDup_app. split_and!; [done| |apply NoDup_singleton].
      intros j Hj ->%list_elem_of_singleton. done.
    + intros ed [Hed| ->%list_elem_of_singleton]%elem_of_app.
      * destruct (Hclosed ed Hed). split; apply elem_of_app; by left.
      * simpl. split; apply elem_of_app; [by left|right; left].
Qed.

Lemma one_child_well_formed : well_formed Sample.one_child.
Proof.
  split_and!.
  - apply (bool_decide_unpack _). vm_compute. exact I.
  - apply (bool_decide_unpack _). vm_compute. exact I.
  - intros ed Hed. simpl in Hed. apply list_elem_of_singleton in Hed as ->.
    split; simpl; [left|right; left].
Qed.

Lemma editor_keeps_well_formed_witness :
  well_formed Sample.one_child ∧
  well_formed (Editor.addNode "b" "eb" Sample.one_child) ∧
  ∀ fuel st', Editor.deleteNode fuel Sample.one_child = Some st' →
              well_formed st'.
Proof.
  pose proof (editor_keeps_well_formed Sample.one_child one_child_well_formed)
    as (_ & _ & Hdel & Hadd).
  split; [exact one_child_well_formed|]. split; [|exact Hdel].
  apply (Hadd "b" "eb" Sample.root eq_refl).
  - simpl. left.
  - apply (bool_decide_unpack _). vm_compute. exact I.
  - apply (bool_decide_unpack _). vm_compute. exact I.
Defined.

(** ** Adding a child and deleting it again *)

(** Add a child under the selection, click the new child, delete: when the
    fresh id was not in use, the nodes and the edges are exactly those from
    before the addition, and nothing is selected.  A stack of one frame is
    enough, whatever the rest of the graph looks like. *)
Theorem addNode_then_deleteNode (i ei : string) (st : Editor.State)
    (sel : Editor.Node) (fuel : nat) :
  Editor.selected st = Some sel →
  Editor.id sel ≠ i →
  i ∉ Editor.id <$> Editor.nodes st →
  (∀ ed, ed ∈ Editor.edges st → source ed ≠ i ∧ target ed ≠ i) →
  0 < fuel →
  ∃ st',
    Editor.deleteNode fuel
      (Editor.onNodeClick (Editor.newNode i sel (Editor.nodes st))
                          (Editor.addNode i ei st)) = Some st' ∧
    Editor.nodes st' = Editor.nodes st ∧
    Editor.edges st' = Editor.edges st ∧
    Editor.selected st' = None.
Proof.
  intros Hsel Hne Hfresh Hedges Hfuel.
  destruct fuel as [|fuel]; [lia|].
  unfold Editor.deleteNode. simpl Editor.selected.
  assert (Editor.edges
            (Editor.onNodeClick (Editor.newNode i sel (Editor.nodes st))
                                (Editor.addNode i ei st))
          = Editor.edges st ++ [mkEdge ei (Editor.id sel) i None None]) as HE.
  { simpl. by apply addNode_edges. }
  assert (Editor.nodes
            (Editor.onNodeClick (Editor.newNode i sel (Editor.nodes st))
                                (Editor.addNode i ei st))
          = Editor.nodes st ++ [Editor.newNode i sel (Editor.nodes st)]) as HN.
  { simpl. by apply addNode_nodes. }
  assert (Editor.getChildren (S fuel)
            (Editor.edges st ++ [mkEdge ei (Editor.id sel) i None None]) i
          = Some []) as Hleaf.
  { simpl. unfold outgoing. rewrite filter_none; [done|].
    intros ed [Hed| ->%list_elem_of_singleton]%elem_of_app.
    - by apply Hedges.
    - done. }
  rewrite HE. simpl Editor.id. rewrite Hleaf. simpl.
  eexists. split; [reflexivity|]. simpl.
  rewrite pushHistory_nodes, pushHistory_edges, HN, HE.
  rewrite !filter_app. split_and!; [| |done].
  - rewrite filter_all, filter_none; [by rewrite app_nil_r| |].
    + intros nd ->%list_elem_of_singleton Hnot. apply Hnot. simpl. left.
    + intros nd Hnd Hin%list_elem_of_singleton. apply Hfresh.
      rewrite <-Hin. by apply list_elem_of_fmap_2.
  - rewrite filter_all, filter_none; [by rewrite app_nil_r| |].
    + intros ed ->%list_elem_of_singleton [_ Hnot]. apply Hnot. simpl. left.
    + intros ed Hed. destruct (Hedges ed Hed) as [Hs Ht].
      split; by intros ?%list_elem_of_singleton.
Qed.

Lemma addNode_then_deleteNode_witness :
  ∃ st',
    Editor.deleteNode 1
      (Editor.onNodeClick
         (Editor.newNode "b" Sample.root (Editor.nodes Sample.one_child))
         (Editor.addNode "b" "eb" Sample.one_child)) = Some st' ∧
    Editor.nodes st' = Editor.nodes Sample.one_child ∧
    Editor.edges st' = Editor.edges Sample.one_child ∧
    Editor.selected st' = None.
Proof.
  apply (addNode_then_deleteNode "b" "eb" Sample.one_child Sample.root 1).
  - reflexivity.
  - done.
  - apply (bool_decide_unpack _). vm_compute. exact I.
  - intros ed Hed. simpl in Hed. apply list_elem_of_singleton in Hed as ->.
    done.
  - lia.
Defined.

(** ** Connection flags *)

(** The right flag of a node says that an edge leaves it, the left flag
    that an edge enters it; a node without the right flag is a leaf of the
    walk; and [addNode] raises the right flag of the parent and the left
    flag of the new child without lowering any flag. *)
Theorem connection_flags :
  (∀ E a, Editor.hasRight E a = true ↔ ∃ b, step E a b) ∧
  (∀ E a, Editor.hasLeft E a = true ↔ ∃ b, step E b a) ∧
  (∀ E a fuel, Editor.hasRight E a = false → 0 < fuel →
               Editor.getChildren fuel E a = Some []) ∧
  (∀ i ei st sel,
     Editor.selected st = Some sel →
     let E' := Editor.edges (Editor.addNode i ei st) in
     Editor.hasRight E' (Editor.id sel) = true ∧
     Editor.hasLeft E' i = true ∧
     (∀ a, Editor.hasRight (Editor.edges st) a = true →
           Editor.hasRight E' a = true) ∧
     (∀ a, Editor.hasLeft (Editor.edges st) a = true →
           Editor.hasLeft E' a = true)).
Proof.
  assert (∀ E a, Editor.hasRight E a = true ↔ ∃ b, step E a b) as HR.
  { intros E a. unfold Editor.hasRight.
    rewrite bool_decide_eq_true, Exists_exists. unfold step. split.
    - intros (ed & Hed & Hs). exists (target ed), ed. done.
    - intros (b & ed & Hed & Hs & _). by exists ed. }
  assert (∀ E a, Editor.hasLeft E a = true ↔ ∃ b, step E b a) as HL.
  { intros E a. unfold Editor.hasLeft.
    rewrite bool_decide_eq_true, Exists_exists. unfold step. split.
    - intros (ed & Hed & Ht). exists (source ed), ed. done.
    - intros (b & ed & Hed & _ & Ht). by exists ed. }
  split_and!; [done|done| |].
  - intros E a [|fuel] Hno Hf; [lia|]. simpl. unfold outgoing.
    rewrite filter_none; [done|]. intros ed Hed Hs.
    apply not_true_iff_false in Hno. apply Hno, HR.
    exists (target ed), ed. done.
  - intros i ei st sel Hsel E'. unfold E'.
    rewrite (addNode_edges i ei st sel Hsel).
    assert (∀ a b, step (Editor.edges st) a b →
                   step (Editor.edges st ++
                           [mkEdge ei (Editor.id sel) i None None]) a b)
      as Hmono.
    { intros a b (ed & Hed & ?). exists ed.
      split; [apply elem_of_app; by left|done]. }
    assert (step (Editor.edges st ++ [mkEdge ei (Editor.id sel) i None None])
                 (Editor.id sel) i) as Hnew.
    { eexists. split; [apply elem_of_app; right; left|done]. }
    split_and!.
    + apply HR. eauto.
    + apply HL. eauto.
    + intros a [b Hb]%HR. apply HR. eauto.
    + intros a [b Hb]%HL. apply HL. eauto.
Qed.

Lemma connection_flags_witness :
  Editor.hasRight (Editor.edges Sample.one_child) "a" = false ∧
  Editor.getChildren 1 (Editor.edges Sample.one_child) "a" = Some [] ∧
  let E' := Editor.edges (Editor.addNode "b" "eb" Sample.one_child) in
  Editor.hasRight E' "1" = true ∧ Editor.hasLeft E' "b" = true.
Proof.
  pose proof connection_flags as (_ & _ & Hleaf & Hadd).
  split; [reflexivity|].
  split; [apply (Hleaf _ "a" 1); [reflexivity|lia]|].
  destruct (Hadd "b" "eb" Sample.one_child Sample.root eq_refl)
    as (HR & HL & _).
  split; [exact HR|exact HL].
Defined.

(** ** Recolouring *)

(** The colour picker changes only the colour of the nodes that carry the
    id of the selection: their id, type, position, label and hidden flag,
    every other node and all edges stay as they are; and the selection
    itself is left as it was, old colour included. *)
Theorem onColorChange_frame (c : string) (st : Editor.State)
    (sel : Editor.Node) :
  Editor.selected st = Some sel →
  Editor.edges (Editor.onColorChange c st) = Editor.edges st ∧
  Editor.selected (Editor.onColorChange c st) = Some sel ∧
  length (Editor.nodes (Editor.onColorChange c st))
    = length (Editor.nodes st) ∧
  ∀ k nd,
    Editor.nodes st !! k = Some nd →
    ∃ nd',
      Editor.nodes (Editor.onColorChange c st) !! k = Some nd' ∧
      Editor.id nd' = Editor.id nd ∧
      Editor.type nd' = Editor.type nd ∧
      Editor.position nd' = Editor.position nd ∧
      Editor.label (Editor.data nd') = Editor.label (Editor.data nd) ∧
      Editor.hidden nd' = Editor.hidden nd ∧
      (Editor.id nd = Editor.id sel →
       Editor.color (Editor.data nd') = Some c) ∧
      (Editor.id nd ≠ Editor.id sel → nd' = nd).
Proof.
  intros Hsel. unfold Editor.onColorChange. rewrite Hsel. simpl.
  split_and!.
  - apply pushHistory_edges.
  - by rewrite pushHistory_selected.
  - apply length_fmap.
  - intros k nd Hk. rewrite list_lookup_fmap, Hk. simpl.
    eexists. split; [done|]. by case_decide.
Qed.

Lemma onColorChange_frame_witness :
  let st := Editor.onNodeClick Sample.root Sample.one_child in
  Editor.selected st = Some Sample.root ∧
  Editor.edges (Editor.onColorChange "#dc3545" st) = Editor.edges st ∧
  Editor.selected (Editor.onColorChange "#dc3545" st) = Some Sample.root ∧
  Editor.color <$> (Editor.data <$> Editor.nodes (Editor.onColorChange "#dc3545" st))
    = [Some "#dc3545"; Some "#333"].
Proof.
  intros st.
  destruct (onColorChange_frame "#dc3545" st Sample.root eq_refl)
    as (HE & HS & _ & _).
  split; [reflexivity|]. split; [exact HE|]. split; [exact HS|reflexivity].
Defined.

(** ** The stored catalog *)

(** A document that [onCreate] has written can be opened: opening it gives
    the one-node document, with a history of one entry; and when a catalog
    was stored before, every other document opens as before. *)
Theorem create_then_open (i : string) (s stored : Editor.Stored)
    (st st1 : Editor.State) :
  Editor.onCreate i s st = Editor.Ok (stored, st1) →
  (∀ st0, ∃ st2,
     Editor.onSelect i stored st0 = Editor.Ok st2 ∧
     Editor.nodes st2 = Editor.nodes st1 ∧
     Editor.edges st2 = Editor.edges st1 ∧
     Editor.nodes st2 = Editor.doc_nodes Editor.init ∧
     Editor.edges st2 = [] ∧
     Editor.mapId st2 = Some i ∧
     Editor.mapId st1 = Some i ∧
     length (Editor.history st2) = 1) ∧
  (∀ m j st0, s = Editor.Json (Editor.JObject m) → j ≠ i →
              Editor.onSelect j stored st0 = Editor.onSelect j s st0).
Proof.
  unfold Editor.onCreate.
  destruct (Editor.JSON_parse_or_empty s) as [[|m]|] eqn:Hparse; [done| |done].
  intros [= <- <-]. split.
  - intros st0. unfold Editor.onSelect. simpl.
    rewrite lookup_insert_eq. eexists. split; [reflexivity|]. done.
  - intros m' j st0 -> Hj. simpl in Hparse. injection Hparse as ->.
    unfold Editor.onSelect. simpl. by rewrite lookup_insert_ne.
Qed.

Lemma create_then_open_witness :
  ∃ stored st1,
    Editor.onCreate "n" Sample.catalog Editor.initial
      = Editor.Ok (stored, st1) ∧
    (∃ st2, Editor.onSelect "n" stored Editor.initial = Editor.Ok st2 ∧
            Editor.nodes st2 = [Sample.root]) ∧
    Editor.onSelect "m" stored Editor.initial = Editor.Ok Sample.opened.
Proof.
  do 2 eexists. split; [reflexivity|].
  pose proof (create_then_open "n" Sample.catalog _ Editor.initial _ eq_refl)
    as [Hopen Hother].
  split.
  - destruct (Hopen Editor.initial) as (st2 & H2 & _ & _ & Hn & _).
    exists st2. split; [exact H2|exact Hn].
  - rewrite (Hother _ "m" Editor.initial eq_refl); [|done].
    vm_compute. reflexivity.
Defined.

(** Deleting from the list view: when the user declines nothing changes;
    when the user confirms, the deleted document can no longer be opened
    (its id being none of the names [Object.prototype] defines), every other
    listed document opens as the list held it, and deleting a document that
    was just created on top of the listed catalog gives the listed catalog
    back. *)
Theorem catalog_delete (i : string) (maps : Editor.JValue) (s : Editor.Stored) :
  Editor.MapListView_delete false i maps s = (maps, s) ∧
  (i ∉ Editor.Object_prototype_keys →
   ∀ st0, Editor.onSelect i (Editor.MapListView_delete true i maps s).2 st0
          = Editor.Throw Editor.TypeError) ∧
  (∀ m j st0, maps = Editor.JObject m → j ≠ i →
     Editor.onSelect j (Editor.MapListView_delete true i maps s).2 st0
     = Editor.onSelect j (Editor.Json maps) st0) ∧
  (∀ m d, m !! i = None →
     Editor.MapListView_delete true i (Editor.JObject (<[i := d]> m)) s
     = (Editor.JObject m, Editor.Json (Editor.JObject m))).
Proof.
  split_and!.
  - done.
  - intros _ st0. unfold Editor.onSelect. simpl. by rewrite lookup_delete_eq.
  - intros m j st0 -> Hj. unfold Editor.onSelect. simpl.
    by rewrite lookup_delete_ne.
  - intros m d Hm. unfold Editor.MapListView_delete. simpl.
    by rewrite delete_insert_id.
Qed.

Lemma catalog_delete_witness :
  ("m" ∉ Editor.Object_prototype_keys) ∧
  (∀ st0, Editor.onSelect "m"
            (Editor.MapListView_delete true "m"
               (Editor.JObject {[ "m" := Editor.init ]}) Sample.catalog).2 st0
          = Editor.Throw Editor.TypeError) ∧
  Editor.MapListView_delete true "m"
    (Editor.JObject (<["m" := Editor.init]> ∅)) Sample.catalog
  = (Editor.JObject ∅, Editor.Json (Editor.JObject ∅)).
Proof.
  assert ("m" ∉ Editor.Object_prototype_keys) as Hm.
  { intros H. unfold Editor.Object_prototype_keys in H.
    repeat (apply elem_of_cons in H as [H|H]; [discriminate H|]).
    by apply elem_of_nil in H. }
  pose proof (catalog_delete "m" (Editor.JObject {[ "m" := Editor.init ]})
                             Sample.catalog) as (_ & Hgone & _ & _).
  split; [exact Hm|]. split; [exact (Hgone Hm)|].
  exact (proj2 (proj2 (proj2 (catalog_delete "m" Editor.JNull Sample.catalog)))
               ∅ Editor.init (lookup_empty "m")).
Defined.

(** ** Autosave *)

(** In the edit view of a document that is in the stored catalog, the
    autosave writes a catalog from which that document opens with the
    current nodes and edges, keeps the document's name, leaves every other
    document as it was, and writes the same catalog when run again. *)
Theorem autosave_round_trip (i : string) (m : gmap string Editor.Document)
    (d : Editor.Document) (st : Editor.State) :
  Editor.view st = Editor.edit_view →
  Editor.mapId st = Some i →
  i ≠ "" →
  m !! i = Some d →
  ∃ m',
    Editor.autosave (Editor.Json (Editor.JObject m)) st
      = Editor.Ok (Editor.Wrote (Editor.Json (Editor.JObject m'))) ∧
    Editor.autosave (Editor.Json (Editor.JObject m')) st
      = Editor.Ok (Editor.Wrote (Editor.Json (Editor.JObject m'))) ∧
    (∃ d', m' !! i = Some d' ∧ Editor.name d' = Editor.name d) ∧
    (∀ j, j ≠ i → m' !! j = m !! j) ∧
    (∀ st0, ∃ st2,
       Editor.onSelect i (Editor.Json (Editor.JObject m')) st0
         = Editor.Ok st2 ∧
       Editor.nodes st2 = Editor.nodes st ∧
       Editor.edges st2 = Editor.edges st).
Proof.
  intros Hview Hid Hne Hd.
  exists (<[i := Editor.mkDocument (Editor.name d) (Editor.nodes st)
                                   (Editor.edges st)]> m).
  unfold Editor.autosave. rewrite Hview, Hid, decide_False by done. simpl.
  rewrite Hd, lookup_insert_eq. simpl. rewrite insert_insert_eq.
  split_and!.
  - done.
  - by rewrite decide_False by done.
  - by eexists.
  - intros j Hj. by rewrite lookup_insert_ne.
  - intros st0. unfold Editor.onSelect. simpl. rewrite lookup_insert_eq.
    eexists. split; [reflexivity|]. done.
Qed.

Lemma autosave_round_trip_witness :
  ∃ m',
    Editor.autosave Sample.catalog Sample.one_child
      = Editor.Ok (Editor.Wrote (Editor.Json (Editor.JObject m'))) ∧
    ∃ st2,
      Editor.onSelect "m" (Editor.Json (Editor.JObject m')) Editor.initial
        = Editor.Ok st2 ∧
      Editor.nodes st2 = Editor.nodes Sample.one_child ∧
      Editor.edges st2 = Editor.edges Sample.one_child.
Proof.
  destruct (autosave_round_trip "m" {[ "m" := Editor.init ]} Editor.init
              Sample.one_child eq_refl eq_refl)
    as (m' & Hsave & _ & _ & _ & Hopen); [done|apply lookup_singleton_eq|].
  exists m'. split; [exact Hsave|]. exact (Hopen Editor.initial).
Defined.



(** ** Keyboard shortcuts *)

(** In the list view no key does anything.  In the edit view Tab adds a
    child, Delete and Backspace delete the selected subtree unless the
    event comes from an INPUT element (so also when it comes from the label
    editor, which is a TEXTAREA), z with Ctrl or Meta undoes, and every
    other key leaves the state alone. *)
Theorem shortcut_dispatch (fuel : nat) (i ei : string) (ev : Editor.KeyEvent)
    (st : Editor.State) :
  (Editor.view st = Editor.list_view →
   Editor.down fuel i ei ev st = Some st) ∧
  (Editor.view st = Editor.edit_view →
   (Editor.key ev = "Tab" →
    Editor.down fuel i ei ev st = Some (Editor.addNode i ei st)) ∧
   (Editor.key ev = "Delete" ∨ Editor.key ev = "Backspace" →
    Editor.targetTagName ev ≠ "INPUT" →
    Editor.down fuel i ei ev st = Editor.deleteNode fuel st) ∧
   (Editor.key ev = "Delete" ∨ Editor.key ev = "Backspace" →
    Editor.targetTagName ev = "TEXTAREA" →
    Editor.down fuel i ei ev st = Editor.deleteNode fuel st) ∧
   (Editor.key ev = "Delete" ∨ Editor.key ev = "Backspace" →
    Editor.targetTagName ev = "INPUT" →
    Editor.down fuel i ei ev st = Some st) ∧
   (Editor.key ev = "z" →
    Editor.down fuel i ei ev st =
      Some (if Editor.ctrlKey ev || Editor.metaKey ev
            then Editor.undo st else st)) ∧
   (Editor.key ev ∉ ["Tab"; "Delete"; "Backspace"; "z"] →
    Editor.down fuel i ei ev st = Some st)).
Proof.
  split; unfold Editor.down; intros ->; [done|].
  assert (∀ o : option Editor.State, (o ≫= λ st2, Some st2) = o) as Hbind
    by (by intros [?|]).
  split_and!.
  - intros ->. simpl. by rewrite andb_false_r.
  - intros Hk Htag. rewrite (decide_False (P := _ = "Tab")) by (by destruct Hk as [-> | ->]).
    rewrite decide_True by done.
    replace (bool_decide (Editor.key ev = "z")) with false
      by (by destruct Hk as [-> | ->]).
    rewrite andb_false_r. apply Hbind.
  - intros Hk Htag. rewrite (decide_False (P := _ = "Tab")) by (by destruct Hk as [-> | ->]).
    rewrite decide_True by (by rewrite Htag).
    replace (bool_decide (Editor.key ev = "z")) with false
      by (by destruct Hk as [-> | ->]).
    rewrite andb_false_r. apply Hbind.
  - intros Hk Htag. rewrite (decide_False (P := _ = "Tab")) by (by destruct Hk as [-> | ->]).
    rewrite decide_False by (intros [_ ?]; done).
    replace (bool_decide (Editor.key ev = "z")) with false
      by (by destruct Hk as [-> | ->]).
    simpl. by rewrite andb_false_r.
  - intros ->. simpl. by rewrite andb_true_r.
  - intros Hk. rewrite !not_elem_of_cons in Hk.
    destruct Hk as (HT & HD & HB & Hz & _).
    rewrite (decide_False (P := _ = "Tab")) by done.
    rewrite decide_False by (intros [[?|?] _]; done).
    rewrite (bool_decide_eq_false_2 _ Hz). simpl. by rewrite andb_false_r.
Qed.

Lemma shortcut_dispatch_witness :
  let st := Editor.onNodeClick (Sample.plain "2" 340 100) Sample.tree_state in
  let ev := Editor.mkKeyEvent "Backspace" false false "TEXTAREA" in
  Editor.view st = Editor.edit_view ∧
  Editor.down 5 "x" "ex" ev st = Editor.deleteNode 5 st ∧
  Editor.id <$> (default [] (Editor.nodes <$> Editor.down 5 "x" "ex" ev st))
    = ["1"; "4"; "5"; "6"].
Proof.
  intros st ev. split; [reflexivity|]. split; [|vm_compute; reflexivity].
  destruct (shortcut_dispatch 5 "x" "ex" ev st) as [_ Hedit].
  destruct (Hedit eq_refl) as (_ & _ & Harea & _).
  apply Harea; [by right|reflexivity].
Defined.

(** ** The first revisions: deletion, collapsing, what is shown *)

Lemma Legacy_deleteNode_removes_subtree_witness :
  let st := Legacy.setSelectedNode (Some (Sample.lnode "2"))
                                   Sample.legacy_tree in
  acyclic_from (Legacy.edges st) "2" ∧
  ∃ st' : Legacy.State,
    (∀ fuel, length (Legacy.edges st) < fuel →
             Legacy.deleteNode fuel st = Some st') ∧
    (∀ nd, nd ∈ Legacy.nodes st' ↔
           nd ∈ Legacy.nodes st ∧
           ¬ descendant (Legacy.edges st) "2" (Legacy.id nd)) ∧
    (∀ ed, ed ∈ Legacy.edges st' ↔
           ed ∈ Legacy.edges st ∧
           ¬ descendant (Legacy.edges st) "2" (source ed) ∧
           ¬ descendant (Legacy.edges st) "2" (target ed)) ∧
    Legacy.selectedNode st' = None.
Proof.
  intros st.
  assert (acyclic_from (Legacy.edges st) "2") as Hac.
  { apply (getDescendants_returns_acyclic 2 _ _ ["2"; "3"; "3"]).
    reflexivity. }
  split; [exact Hac|].
  exact (Legacy_deleteNode_removes_subtree st (Sample.lnode "2") eq_refl Hac).
Defined.

Section shown.
Import Legacy.

Lemma filter_ext_in {A} (P Q : A → Prop) `{!∀ a, Decision (P a)}
    `{!∀ a, Decision (Q a)} (l : list A) :
  (∀ a, a ∈ l → P a ↔ Q a) → filter P l = filter Q l.
Proof.
  induction l as [|a l IH]; intros Hall; [done|].
  rewrite !filter_cons.
  rewrite IH by (intros b Hb; apply Hall; by right).
  destruct (decide (P a)) as [HP|HP], (decide (Q a)) as [HQ|HQ]; try done.
  - destruct HQ. apply Hall; [left|done].
  - destruct HP. apply Hall; [left|done].
Qed.

(** Looking a node up by id in a list of nodes. *)
Lemma find_by_id_Some nds j x :
  List.find (λ x, bool_decide (id x = j)) nds = Some x → x ∈ nds ∧ id x = j.
Proof.
  intros [Hin Hid]%find_some. split; [by apply list_elem_of_In|].
  by apply bool_decide_eq_true in Hid.
Qed.

Lemma find_by_id_None nds j :
  List.find (λ x, bool_decide (id x = j)) nds = None ↔ j ∉ id <$> nds.
Proof.
  split.
  - intros Hnone (x & -> & Hx)%list_elem_of_fmap.
    apply list_elem_of_In in Hx. apply (find_none _ _ Hnone) in Hx.
    by apply bool_decide_eq_false in Hx.
  - intros Hnot. destruct (List.find _ nds) as [x|] eqn:Hfind; [|done].
    apply find_by_id_Some in Hfind as [Hin <-]. destruct Hnot.
    by apply list_elem_of_fmap_2.
Qed.

Lemma find_by_id_fmap (g : Node → Node) nds j :
  (∀ nd, id (g nd) = id nd) →
  List.find (λ x, bool_decide (id x = j)) (g <$> nds)
  = g <$> List.find (λ x, bool_decide (id x = j)) nds.
Proof.
  intros Hg. induction nds as [|nd nds IH]; [done|].
  simpl. rewrite Hg. by destruct (bool_decide (id nd = j)).
Qed.

Lemma hiddenOf_all_visible nds j :
  (∀ nd, nd ∈ nds → truthy (hidden nd) = false) →
  truthy (hiddenOf nds j) = false.
Proof.
  intros Hvis. unfold hiddenOf.
  destruct (List.find _ nds) as [x|] eqn:Hfind; [|done].
  apply find_by_id_Some in Hfind as [Hin _]. simpl. by apply Hvis.
Qed.

End shown.

(** Whenever the walk from the selected node returns, the toggle and the
    deletion leave the same nodes and edges on screen. *)
Lemma toggle_delete_same_view (fuel : nat) (st : Legacy.State)
    (sel : Legacy.Node) (l : list string) :
  Legacy.selectedNode st = Some sel →
  (∀ nd, nd ∈ Legacy.nodes st → truthy (Legacy.hidden nd) = false) →
  closed (Legacy.id <$> Legacy.nodes st) (Legacy.edges st) →
  Legacy.getDescendants fuel (Legacy.edges st) (Legacy.id sel) = Some l →
  ∃ st1 st2,
    Legacy.toggleChildren fuel (Legacy.id sel) st = Some st1 ∧
    Legacy.deleteNode fuel st = Some st2 ∧
    Legacy.visibleNodes st1 = Legacy.nodes st2 ∧
    Legacy.visibleEdges st1 = Legacy.edges st2 ∧
    (∀ nd, nd ∈ Legacy.visibleNodes st1 → Legacy.id nd ≠ Legacy.id sel).
Proof.
  intros Hsel Hvis Hclosed Hl.
  unfold Legacy.toggleChildren, Legacy.deleteNode. rewrite Hsel, Hl. simpl.
  do 2 eexists. split; [reflexivity|]. split; [reflexivity|].
  change (λ n, if decide (Legacy.id n ∈ l)
               then Legacy.withHidden
                      (negb (truthy (Legacy.hiddenOf (Legacy.nodes st)
                                                     (Legacy.id n)))) n
               else n)
    with (toggled l (Legacy.nodes st)).
  unfold Legacy.visibleNodes, Legacy.visibleEdges. simpl.
  assert (∀ nd, truthy (Legacy.hidden (toggled l (Legacy.nodes st) nd))
                = if decide (Legacy.id nd ∈ l) then true
                  else truthy (Legacy.hidden nd)) as Htog.
  { intros nd. unfold toggled. case_decide; [|done]. simpl.
    by rewrite hiddenOf_all_visible. }
  assert (filter (λ n, truthy (Legacy.hidden n) = false)
                 (toggled l (Legacy.nodes st) <$> Legacy.nodes st)
          = filter (λ n, Legacy.id n ∉ l) (Legacy.nodes st)) as Hnodes.
  { pose proof Hvis as Hvis'. revert Hvis'.
    generalize (Legacy.nodes st) at 1 3 4.
    induction l0 as [|nd nds IH]; intros Hv; [done|].
    rewrite fmap_cons, !filter_cons, Htog.
    rewrite IH by (intros ? ?; apply Hv; by right).
    destruct (decide (Legacy.id nd ∈ l)) as [Hin|Hin].
    - rewrite decide_False by done. by rewrite decide_False by tauto.
    - rewrite decide_True by (apply Hv; left). rewrite decide_True by done.
      f_equal. unfold toggled. by rewrite decide_False. }
  split; [exact Hnodes|]. split.
  - apply filter_ext_in. intros ed Hed.
    assert (∀ j, j ∈ Legacy.id <$> Legacy.nodes st →
                 truthy (Legacy.hiddenOf
                           (toggled l (Legacy.nodes st) <$> Legacy.nodes st) j)
                 = false ↔ j ∉ l) as Hhid.
    { intros j Hj. unfold Legacy.hiddenOf.
      rewrite find_by_id_fmap by apply toggled_id.
      destruct (List.find _ (Legacy.nodes st)) as [x|] eqn:Hfind.
      - apply find_by_id_Some in Hfind as [Hx <-]. simpl. rewrite Htog.
        case_decide; [split; [done|tauto]|]. split; [done|]. intros _.
        by apply Hvis.
      - apply find_by_id_None in Hfind. done. }
    destruct (Hclosed ed Hed) as [Hs Ht].
    by rewrite (Hhid _ Hs), (Hhid _ Ht).
  - intros nd Hnd Hid. rewrite Hnodes in Hnd.
    apply list_elem_of_filter in Hnd as [Hnot _]. apply Hnot.
    rewrite Hid. apply (getDescendants_elem _ _ _ _ Hl). apply rtc_refl.
Qed.

(** On a document in which every node is visible and no edge dangles:
    when no cycle can be reached from the selected node, [toggleChildren] on
    it and [deleteNode] both return (a call stack deeper than the number of
    edges is enough), and the toggle leaves on screen exactly the nodes and
    exactly the edges that the deletion keeps: the node itself and all its
    descendants disappear; when a cycle can be reached, neither returns. *)
Theorem toggle_hides_what_delete_removes (st : Legacy.State)
    (sel : Legacy.Node) :
  Legacy.selectedNode st = Some sel →
  (∀ nd, nd ∈ Legacy.nodes st → truthy (Legacy.hidden nd) = false) →
  closed (Legacy.id <$> Legacy.nodes st) (Legacy.edges st) →
  (acyclic_from (Legacy.edges st) (Legacy.id sel) →
   ∃ st1 st2,
     (∀ fuel, length (Legacy.edges st) < fuel →
        Legacy.toggleChildren fuel (Legacy.id sel) st = Some st1 ∧
        Legacy.deleteNode fuel st = Some st2) ∧
     Legacy.visibleNodes st1 = Legacy.nodes st2 ∧
     Legacy.visibleEdges st1 = Legacy.edges st2 ∧
     (∀ nd, nd ∈ Legacy.visibleNodes st1 → Legacy.id nd ≠ Legacy.id sel)) ∧
  (¬ acyclic_from (Legacy.edges st) (Legacy.id sel) →
   ∀ fuel,
     Legacy.toggleChildren fuel (Legacy.id sel) st = None ∧
     Legacy.deleteNode fuel st = None).
Proof.
  intros Hsel Hvis Hclosed. split.
  - intros Hac.
    destruct (walks_return_acyclic _ _ Hac) as (l & _ & Hl & _ & _ & _).
    destruct (toggle_delete_same_view (S (length (Legacy.edges st))) st sel l
                Hsel Hvis Hclosed (Hl _ (Nat.lt_succ_diag_r _)))
      as (st1 & st2 & Ht & Hd & Hrest).
    exists st1, st2. split; [|exact Hrest].
    intros fuel Hf. revert Ht Hd.
    unfold Legacy.toggleChildren, Legacy.deleteNode. rewrite Hsel.
    by rewrite (Hl fuel Hf), (Hl _ (Nat.lt_succ_diag_r _)).
  - intros Hcyc fuel.
    unfold Legacy.toggleChildren, Legacy.deleteNode. rewrite Hsel.
    destruct (Legacy.getDescendants fuel (Legacy.edges st) (Legacy.id sel))
      as [l|] eqn:Hl; [|done].
    destruct Hcyc. by apply (getDescendants_returns_acyclic fuel _ _ l).
Qed.

Lemma toggle_hides_what_delete_removes_witness :
  let st := Legacy.setSelectedNode (Some (Sample.lnode "2"))
                                   Sample.legacy_tree in
  acyclic_from (Legacy.edges st) "2" ∧
  ∃ st1 st2,
    (∀ fuel, length (Legacy.edges st) < fuel →
       Legacy.toggleChildren fuel "2" st = Some st1 ∧
       Legacy.deleteNode fuel st = Some st2) ∧
    Legacy.visibleNodes st1 = Legacy.nodes st2 ∧
    Legacy.visibleEdges st1 = Legacy.edges st2 ∧
    (∀ nd, nd ∈ Legacy.visibleNodes st1 → Legacy.id nd ≠ "2").
Proof.
  intros st.
  assert (acyclic_from (Legacy.edges st) "2") as Hac
    by exact (getDescendants_returns_acyclic 2 (Legacy.edges st) "2"
                ["2"; "3"; "3"] eq_refl).
  split; [exact Hac|].
  apply (toggle_hides_what_delete_removes st (Sample.lnode "2")); [| | |exact Hac].
  - reflexivity.
  - intros nd Hnd. simpl in Hnd.
    repeat (apply elem_of_cons in Hnd as [->|Hnd]; [reflexivity|]).
    by apply elem_of_nil in Hnd.
  - intros ed Hed. simpl in Hed.
    repeat (apply elem_of_cons in Hed as [->|Hed];
            [split; simpl; by repeat constructor|]).
    by apply elem_of_nil in Hed.
Defined.

(** With unique node ids, an edge that is shown never touches a node that
    is not shown; an edge both of whose ends have no node at all is shown. *)
Theorem visibleEdges_join_visibleNodes (st : Legacy.State) :
  NoDup (Legacy.id <$> Legacy.nodes st) →
  (∀ ed nd,
     ed ∈ Legacy.visibleEdges st → nd ∈ Legacy.nodes st →
     Legacy.id nd = source ed ∨ Legacy.id nd = target ed →
     nd ∈ Legacy.visibleNodes st) ∧
  (∀ ed,
     ed ∈ Legacy.edges st →
     source ed ∉ Legacy.id <$> Legacy.nodes st →
     target ed ∉ Legacy.id <$> Legacy.nodes st →
     ed ∈ Legacy.visibleEdges st).
Proof.
  intros Hnd. split.
  - intros ed nd [[Hs Ht] _]%list_elem_of_filter Hin Hid.
    apply list_elem_of_filter. split; [|done].
    rewrite <-(hiddenOf_unique _ _ Hnd Hin).
    by destruct Hid as [-> | ->].
  - intros ed Hed Hs Ht. apply list_elem_of_filter. split; [|done].
    unfold Legacy.hiddenOf.
    apply find_by_id_None in Hs, Ht. by rewrite Hs, Ht.
Qed.

Lemma visibleEdges_join_visibleNodes_witness :
  ∃ st1,
    Legacy.toggleChildren 2 "2" Sample.legacy_tree = Some st1 ∧
    Legacy.visibleEdges st1 = [Sample.e14] ∧
    ∀ ed nd,
      ed ∈ Legacy.visibleEdges st1 → nd ∈ Legacy.nodes st1 →
      Legacy.id nd = source ed ∨ Legacy.id nd = target ed →
      nd ∈ Legacy.visibleNodes st1.
Proof.
  eexists. split; [vm_compute; reflexivity|]. split; [reflexivity|].
  apply visibleEdges_join_visibleNodes.
  apply (bool_decide_unpack _). vm_compute. exact I.
Defined.

(** ** The first revisions: adding and editing *)

Section legacy_add.
Import Legacy.

Lemma Legacy_addNode_selected i ei st :
  selectedNode (addNode i ei st) = selectedNode st.
Proof. unfold addNode. by destruct (selectedNode st) eqn:Hsel. Qed.

Lemma Legacy_addNode_edges i ei st sel :
  selectedNode st = Some sel →
  edges (addNode i ei st) =
    edges st ++ [mkEdge ei (id sel) i (Some "item2") (Some "item1")].
Proof. intros Hsel. unfold addNode. by rewrite Hsel. Qed.

Lemma outgoing_snoc E ed a :
  length (outgoing (E ++ [ed]) a) =
    if decide (source ed = a) then S (length (outgoing E a))
    else length (outgoing E a).
Proof.
  unfold outgoing. rewrite filter_app, length_app, filter_cons, filter_nil.
  case_decide; simpl; lia.
Qed.

End legacy_add.

Lemma addNodeSeen_selected seen i ei st :
  Legacy.selectedNode (Legacy.addNodeSeen seen i ei st)
  = Legacy.selectedNode st.
Proof.
  unfold Legacy.addNodeSeen. by destruct (Legacy.selectedNode st) eqn:Hsel.
Qed.

Lemma tabAdds_positions seen (steps : list (string * string))
    (st : Legacy.State) (sel : Legacy.Node) :
  Legacy.selectedNode st = Some sel →
  ∃ added,
    Legacy.nodes (Legacy.tabAdds seen steps st) = Legacy.nodes st ++ added ∧
    Legacy.id <$> added = fst <$> steps ∧
    (∀ nd, nd ∈ added →
       Legacy.position nd =
         mkPosition
           (x (Legacy.position sel) + 250)
           (y (Legacy.position sel) +
            Z.of_nat (length (outgoing seen (Legacy.id sel))) * 100)).
Proof.
  unfold Legacy.tabAdds. revert st.
  induction steps as [|[i ei] steps IH]; intros st Hsel.
  { exists []. rewrite app_nil_r. split_and!; [done..|].
    by intros nd ?%elem_of_nil. }
  simpl. unfold Legacy.handleKeyDown at 2.
  rewrite decide_True by done. rewrite Hsel.
  destruct (IH (Legacy.addNodeSeen seen i ei st))
    as (added & Hnodes & Hids & Hpos).
  { by rewrite addNodeSeen_selected. }
  revert Hnodes. unfold Legacy.addNodeSeen at 2. rewrite Hsel. simpl.
  intros Hnodes. eexists (_ :: added).
  split; [by rewrite Hnodes, <-app_assoc|].
  split; [by rewrite fmap_cons, Hids|].
  intros nd [->|Hnd]%elem_of_cons; [done|by apply Hpos].
Qed.

(** In the first revisions, on integer coordinates that doubles hold
    exactly: children added with the button one after the other under one
    selection are appended in order, the [k]-th of them [k] rows (of 100)
    below the first, so no two of them get the same position; children
    added with the Tab key under one selection are appended in order as
    well, but the key handler keeps the edge list of the render in which
    the node was selected, so all of them get one and the same position. *)
Theorem Legacy_addNodes_positions (steps : list (string * string))
    (st : Legacy.State) (sel : Legacy.Node) :
  Legacy.selectedNode st = Some sel →
  (safe_placement 250 100 (Legacy.position sel)
     (length (outgoing (Legacy.edges st) (Legacy.id sel)) + length steps) →
   ∃ added,
     Legacy.nodes (Legacy.addNodes steps st) = Legacy.nodes st ++ added ∧
     Legacy.id <$> added = fst <$> steps ∧
     (∀ k nd, added !! k = Some nd →
        Legacy.position nd =
          mkPosition
            (x (Legacy.position sel) + 250)
            (y (Legacy.position sel) +
             Z.of_nat (length (outgoing (Legacy.edges st) (Legacy.id sel)) + k)
             * 100)) ∧
     NoDup (Legacy.position <$> added)) ∧
  (∀ seen,
     safe_placement 250 100 (Legacy.position sel)
       (length (outgoing seen (Legacy.id sel))) →
     ∃ added,
       Legacy.nodes (Legacy.tabAdds seen steps st) = Legacy.nodes st ++ added ∧
       Legacy.id <$> added = fst <$> steps ∧
       (∀ nd, nd ∈ added →
          Legacy.position nd =
            mkPosition
              (x (Legacy.position sel) + 250)
              (y (Legacy.position sel) +
               Z.of_nat (length (outgoing seen (Legacy.id sel))) * 100))).
Proof.
  intros Hsel. split;
    [intros _|intros seen _; by apply tabAdds_positions].
  assert (∃ added,
    Legacy.nodes (Legacy.addNodes steps st) = Legacy.nodes st ++ added ∧
    Legacy.id <$> added = fst <$> steps ∧
    (∀ k nd, added !! k = Some nd →
       Legacy.position nd =
         mkPosition
           (x (Legacy.position sel) + 250)
           (y (Legacy.position sel) +
            Z.of_nat (length (outgoing (Legacy.edges st) (Legacy.id sel)) + k)
            * 100))) as (added & Hnodes & Hids & Hpos).
  { unfold Legacy.addNodes. revert st Hsel.
    induction steps as [|[i ei] steps IH]; intros st Hsel.
    { exists []. rewrite app_nil_r. split_and!; [done..|]. by intros k nd. }
    simpl.
    destruct (IH (Legacy.addNode i ei st)) as (added & Hnodes & Hids & Hpos).
    { by rewrite Legacy_addNode_selected. }
    rewrite (Legacy_addNode_edges i ei st sel Hsel), outgoing_snoc in Hpos.
    simpl in Hpos. rewrite decide_True in Hpos by done.
    destruct (Legacy_addNode_placement i ei st sel Hsel)
      as (child & Hchild & Hcpos).
    assert (Legacy.id child = i) as Hcid.
    { unfold Legacy.addNode in Hchild. rewrite Hsel in Hchild.
      simpl in Hchild. by apply app_inj_tail in Hchild as [_ <-]. }
    exists (child :: added).
    split; [by rewrite Hnodes, Hchild, <-app_assoc|].
    split; [rewrite fmap_cons, Hcid; f_equal; exact Hids|].
    intros [|k] nd Hk; simplify_eq/=.
    - by rewrite Hcpos, Nat.add_0_r.
    - rewrite (Hpos k nd Hk). do 3 f_equal. lia. }
  exists added. split_and!; [done..|].
  apply NoDup_alt. intros j k p Hj Hk.
  apply list_lookup_fmap_Some in Hj as (ndj & -> & Hj).
  apply list_lookup_fmap_Some in Hk as (ndk & Heq & Hk).
  rewrite (Hpos j ndj Hj), (Hpos k ndk Hk) in Heq.
  injection Heq as Heq. lia.
Qed.

Lemma Legacy_addNodes_positions_witness :
  let st := Legacy.setSelectedNode (Some (Sample.lnode "1"))
                                   Sample.legacy_tree in
  safe_placement 250 100 (mkPosition 0 0) (2 + 2) ∧
  (∃ added,
     Legacy.nodes (Legacy.addNodes [("a", "ea"); ("b", "eb")] st)
       = Legacy.nodes st ++ added ∧
     Legacy.id <$> added = ["a"; "b"] ∧
     Legacy.position <$> added = [mkPosition 250 200; mkPosition 250 300] ∧
     NoDup (Legacy.position <$> added)) ∧
  (∃ added,
     Legacy.nodes (Legacy.tabAdds Sample.tree [("a", "ea"); ("b", "eb")] st)
       = Legacy.nodes st ++ added ∧
     Legacy.id <$> added = ["a"; "b"] ∧
     Legacy.position <$> added = [mkPosition 250 200; mkPosition 250 200]).
Proof.
  intros st.
  assert (safe_placement 250 100 (mkPosition 0 0) (2 + 2)) as Hex
    by (unfold safe_placement, isSafeInteger; simpl; lia).
  assert (safe_placement 250 100 (mkPosition 0 0) 2) as Hex'
    by (unfold safe_placement, isSafeInteger; simpl; lia).
  destruct (Legacy_addNodes_positions [("a", "ea"); ("b", "eb")] st
              (Sample.lnode "1") eq_refl) as [Hbutton Htab].
  split; [exact Hex|]. split.
  - destruct (Hbutton Hex) as (added & Hn & Hid & _ & Hnd).
    exists added. split; [exact Hn|]. split; [exact Hid|]. split; [|exact Hnd].
    vm_compute in Hn. injection Hn as Hn. by rewrite <-Hn.
  - destruct (Htab Sample.tree Hex') as (added & Hn & Hid & _).
    exists added. split; [exact Hn|]. split; [exact Hid|].
    vm_compute in Hn. injection Hn as Hn. by rewrite <-Hn.
Defined.

(** In the first revisions [addNode] joins the right handle of the parent
    to the left handle of the new child and lowers no connection flag; a
    document without edges has no flag raised. *)
Theorem Legacy_addNode_connects (i ei : string) (st : Legacy.State)
    (sel : Legacy.Node) :
  Legacy.selectedNode st = Some sel →
  let E' := Legacy.edges (Legacy.addNode i ei st) in
  Legacy.hasRightConnection E' (Legacy.id sel) = true ∧
  Legacy.hasLeftConnection E' i = true ∧
  (∀ h a, Legacy.hasConnection h (Legacy.edges st) a = true →
          Legacy.hasConnection h E' a = true) ∧
  (∀ h a, Legacy.hasConnection h [] a = false).
Proof.
  intros Hsel E'. unfold E'. rewrite (Legacy_addNode_edges i ei st sel Hsel).
  unfold Legacy.hasRightConnection, Legacy.hasLeftConnection,
    Legacy.hasConnection.
  split_and!.
  - apply bool_decide_eq_true, Exists_app. right. left. simpl. by left.
  - apply bool_decide_eq_true, Exists_app. right. left. simpl. by right.
  - intros h a Ha%bool_decide_eq_true.
    apply bool_decide_eq_true, Exists_app. by left.
  - intros h a. apply bool_decide_eq_false. by intros ?%Exists_nil.
Qed.

Lemma Legacy_addNode_connects_witness :
  let st := Legacy.setSelectedNode (Some (Sample.lnode "4"))
                                   Sample.legacy_tree in
  Legacy.hasRightConnection (Legacy.edges st) "4" = false ∧
  let E' := Legacy.edges (Legacy.addNode "a" "ea" st) in
  Legacy.hasRightConnection E' "4" = true ∧
  Legacy.hasLeftConnection E' "a" = true.
Proof.
  intros st. split; [reflexivity|].
  destruct (Legacy_addNode_connects "a" "ea" st (Sample.lnode "4") eq_refl)
    as (HR & HL & _).
  split; [exact HR|exact HL].
Defined.

(** [editNode] does nothing without a selection, when the prompt is
    cancelled, or when it is answered with the empty text; otherwise it is
    a rename of the selected node, which changes no edge, no selection and
    no node with another id. *)
Theorem editNode_frame (answer : option string) (st : Legacy.State) :
  (Legacy.selectedNode st = None ∨ answer = None ∨ answer = Some "" →
   Legacy.editNode answer st = st) ∧
  (∀ sel newLabel,
     Legacy.selectedNode st = Some sel → answer = Some newLabel →
     newLabel ≠ "" →
     Legacy.editNode answer st
       = Legacy.updateNodeLabel (Legacy.id sel) newLabel st) ∧
  Legacy.edges (Legacy.editNode answer st) = Legacy.edges st ∧
  Legacy.selectedNode (Legacy.editNode answer st) = Legacy.selectedNode st ∧
  Legacy.id <$> Legacy.nodes (Legacy.editNode answer st)
    = Legacy.id <$> Legacy.nodes st ∧
  (∀ sel k nd,
     Legacy.selectedNode st = Some sel →
     Legacy.nodes st !! k = Some nd → Legacy.id nd ≠ Legacy.id sel →
     Legacy.nodes (Legacy.editNode answer st) !! k = Some nd).
Proof.
  unfold Legacy.editNode, Legacy.updateNodeLabel.
  destruct (Legacy.selectedNode st) as [sel|] eqn:Hsel.
  2:{ split_and!; try done; by intros; simplify_eq. }
  destruct answer as [newLabel|].
  2:{ split_and!; try done; by intros; simplify_eq. }
  destruct (decide (newLabel = "")) as [->|Hne].
  { split_and!; try done; by intros; simplify_eq. }
  split_and!.
  - intros [?|[?|[= ?]]]; done.
  - intros sel' l' [= <-] [= <-] _. done.
  - done.
  - done.
  - simpl. rewrite <-list_fmap_compose. apply list_fmap_ext.
    intros ? nd _. simpl. by case_decide.
  - intros sel' k nd [= <-] Hk Hid. simpl.
    rewrite list_lookup_fmap, Hk. simpl. by rewrite decide_False.
Qed.

Lemma editNode_frame_witness :
  let st := Legacy.setSelectedNode (Some (Sample.lnode "2"))
                                   Sample.legacy_tree in
  Legacy.editNode (Some "") st = st ∧
  Legacy.editNode (Some "Two") st = Legacy.updateNodeLabel "2" "Two" st ∧
  Legacy.nodes (Legacy.editNode (Some "Two") st) !! 0
    = Some (Sample.lnode "1").
Proof.
  intros st.
  destruct (editNode_frame (Some "") st) as (Hnoop & _).
  destruct (editNode_frame (Some "Two") st) as (_ & Hren & _ & _ & _ & Hother).
  split; [apply Hnoop; by right; right|].
  split; [by apply (Hren (Sample.lnode "2"))|].
  by apply (Hother (Sample.lnode "2")).
Defined.
